(** * Harmonic Explorer: the per-frame physics core of [harmonic_explorer.py]

    The class [HarmonicExplorer] owns a particle cloud (two N x 2 arrays,
    [positions] and [velocities]), a clock [t] and a handful of constants.
    [__init__] samples the cloud in a disk of radius 3, [update] applies a
    time-varying radial/tangential force field with damped symplectic Euler
    integration and returns the position array.

    The code runs on numpy [float64].  The embedding below is written once,
    over an interface [Arith] of the scalar operations the source uses, and
    is read at two instances:
    - [binary64]: IEEE 754 double precision (Rocq's primitive floats), the
      arithmetic the program really runs on;
    - [exact]: the real numbers, the arithmetic the source's formulas are
      written in, used for statements that hold "up to rounding". *)

From Stdlib Require Import ZArith List Bool Lia.
From Stdlib Require Import QArith Qabs Qreals.
From Stdlib Require Import Floats.
From Stdlib Require Import Reals Lra.
Import ListNotations.

(** ** Scalar arithmetic used by the source *)

(** One field per scalar operation of the source.  [of_int] is the coercion
    applied to an [int] operand of a float product ([2*np.pi*self.p_radial],
    [self.p_tangential * theta]): Python's [float(int)], which raises
    OverflowError when the integer has no float value.  [lit] reads a
    numeric literal ([0.01], [1e-9], and [2], [3] as float operands). *)
Class Arith (F : Type) : Type := {
  fadd : F -> F -> F;
  fmul : F -> F -> F;
  fdiv : F -> F -> F;
  fneg : F -> F;
  feqb : F -> F -> bool;
  fsqrt : F -> F;
  fsin : F -> F;
  fcos : F -> F;
  farctan2 : F -> F -> F;
  of_int : Z -> option F;
  lit : Q -> F;
  pi : F
}.

Declare Scope arith_scope.
Delimit Scope arith_scope with A.
Infix "+" := fadd : arith_scope.
Infix "*" := fmul : arith_scope.
Infix "/" := fdiv : arith_scope.
Notation "- x" := (fneg x) : arith_scope.
Infix "==" := feqb (at level 70, no associativity) : arith_scope.

(** ** Exceptions and results *)

Inductive exn : Type :=
| ValueError      (* numpy: negative dimension, operands that do not broadcast *)
| OverflowError.  (* Python: int too large to convert to float *)

Inductive result (A : Type) : Type :=
| Ok (a : A)
| Raise (e : exn).
Arguments Ok {A} a.
Arguments Raise {A} e.

Definition is_ok {A} (r : result A) : bool :=
  match r with Ok _ => true | Raise _ => false end.

(** ** The simulator object *)

Section Simulator.

Context {F : Type} {AF : Arith F}.
Local Open Scope arith_scope.

(** A row of an N x 2 array. *)
Definition vec : Type := (F * F)%type.

(** The attributes [__init__] sets on [self]. *)
Record HarmonicExplorer : Type := mkSim {
  p_radial : Z;
  p_tangential : Z;
  N : Z;
  damping : F;
  dt : F;
  base_freq : F;
  force_amplitude : F;
  t : F;
  positions : list vec;
  velocities : list vec
}.

(** Elementwise binary operation on two arrays of equal length. *)
Fixpoint zip_with {A B C} (f : A -> B -> C) (l : list A) (m : list B) : list C :=
  match l, m with
  | a :: l', b :: m' => f a b :: zip_with f l' m'
  | _, _ => []
  end.

(** [np.random.rand(n)]: the next [n] samples of the global generator, the
    first of which is sample number [start].  The outcome of the random
    source is the stream [rng]. *)
Definition rand (rng : nat -> F) (start n : nat) : list F :=
  map rng (seq start n).

(** [_initialize_particles]: polar samples [(r, theta)] turned into rows
    [(r cos theta, r sin theta)]; [np.zeros_like] for the velocities.
    [np.random.rand] refuses a negative length (limits of memory apart,
    it accepts every other one, 0 included). *)
Definition _initialize_particles (rng : nat -> F) (s : HarmonicExplorer)
  : result HarmonicExplorer :=
  if (N s <? 0)%Z then Raise ValueError
  else
    let n := Z.to_nat (N s) in
    let r := map (fun u => fsqrt u * lit 3) (rand rng 0 n) in
    let theta := map (fun u => (lit 2 * pi) * u) (rand rng n n) in
    let pos := zip_with (fun r th => (r * fcos th, r * fsin th)) r theta in
    Ok (mkSim (p_radial s) (p_tangential s) (N s) (damping s) (dt s)
              (base_freq s) (force_amplitude s) (t s)
              pos (map (fun _ => (lit 0, lit 0)) pos)).

(** [__init__(p_radial, p_tangential, num_particles, damping_factor)].
    The message printed on the console is not part of the state. *)
Definition __init__ (p_radial p_tangential num_particles : Z) (damping_factor : F)
  (rng : nat -> F) : result HarmonicExplorer :=
  _initialize_particles rng
    (mkSim p_radial p_tangential num_particles damping_factor
           (lit (1 # 100)) (lit (1 # 10)) (lit 1) (lit 0) [] []).

(** Defaults of the keyword arguments. *)
Definition default_num_particles : Z := 5000.

(** *** One frame *)

(** [r = np.sqrt(x**2 + y**2); r[r == 0] = 1e-9]. *)
Definition radius (x y : F) : F :=
  let r := fsqrt (x * x + y * y) in
  if r == lit 0 then lit (1 # 1000000000) else r.

(** [2 * np.pi * p * self.base_freq * self.t], left to right. *)
Definition phase (s : HarmonicExplorer) (p : F) : F :=
  lit 2 * pi * p * base_freq s * t s.

Definition F_radial_mag (s : HarmonicExplorer) (pr pt theta : F) : F :=
  force_amplitude s * fsin (phase s pr) * fcos (pt * theta).

Definition F_tangential_mag (s : HarmonicExplorer) (pt : F) : F :=
  force_amplitude s * fcos (phase s pt).

(** Sections 1-3 of [update] for one row [(x, y)] of [positions]: the row of
    [forces]. *)
Definition force (s : HarmonicExplorer) (pr pt : F) (p : vec) : vec :=
  let '(x, y) := p in
  let r := radius x y in
  let theta := farctan2 y x in
  let Fr := F_radial_mag s pr pt theta in
  let Ft := F_tangential_mag s pt in
  let r_hat_x := x / r in
  let r_hat_y := y / r in
  let t_hat_x := (- y) / r in
  let t_hat_y := x / r in
  (r_hat_x * Fr + t_hat_x * Ft, r_hat_y * Fr + t_hat_y * Ft).

(** Section 4 for one row: [velocities *= damping; velocities += forces * dt]. *)
Definition kick (s : HarmonicExplorer) (v f : vec) : vec :=
  (fst v * damping s + fst f * dt s, snd v * damping s + snd f * dt s).

(** [velocities *= c] for one row. *)
Definition scale (c : F) (v : vec) : vec := (fst v * c, snd v * c).

(** [positions += velocities * dt], with the velocity just computed. *)
Definition drift (s : HarmonicExplorer) (p v : vec) : vec :=
  (fst p + fst v * dt s, snd p + snd v * dt s).

(** Sections 1-5 of [update] once the two ratios are converted: forces from
    the old positions and the old clock, then the in-place updates of
    [velocities], [positions] and [t], in this order. *)
Definition next (s : HarmonicExplorer) (pr pt : F) : HarmonicExplorer :=
  let forces := map (force s pr pt) (positions s) in
  let vel := zip_with (kick s) (velocities s) forces in
  let pos := zip_with (drift s) (positions s) vel in
  mkSim (p_radial s) (p_tangential s) (N s) (damping s) (dt s)
        (base_freq s) (force_amplitude s) (t s + dt s) pos vel.

(** [update]: the new object state and the array handed back to the caller,
    which is [self.positions] itself.  The products with [self.p_radial] and
    [self.p_tangential] raise when the integer has no float value (before
    anything is written); the in-place additions raise when the two arrays
    do not have the same number of rows; nothing else can fail.  What is
    left of the object after an exception is not modelled. *)
Definition update (s : HarmonicExplorer) : result (HarmonicExplorer * list vec) :=
  match of_int (p_radial s), of_int (p_tangential s) with
  | Some pr, Some pt =>
      if (length (velocities s) =? length (positions s))%nat then
        let s' := next s pr pt in Ok (s', positions s')
      else Raise ValueError
  | _, _ => Raise OverflowError
  end.

(** [k] calls of [update] in a row: the final state and the arrays returned,
    first call first, each as it was when its call returned. *)
Fixpoint run (k : nat) (s : HarmonicExplorer) : result (HarmonicExplorer * list (list vec)) :=
  match k with
  | O => Ok (s, [])
  | S k' =>
      match update s with
      | Ok (s1, frame) =>
          match run k' s1 with
          | Ok (s2, frames) => Ok (s2, frame :: frames)
          | Raise e => Raise e
          end
      | Raise e => Raise e
      end
  end.

(** Two objects that agree on everything [update] reads: the configuration,
    the clock and the two arrays. *)
Definition same_physics (a b : HarmonicExplorer) : Prop :=
  p_radial a = p_radial b /\ p_tangential a = p_tangential b /\
  damping a = damping b /\ dt a = dt b /\ base_freq a = base_freq b /\
  force_amplitude a = force_amplitude b /\ t a = t b /\
  positions a = positions b /\ velocities a = velocities b.

(** The shape invariant of the object: both arrays are N x 2. *)
Definition well_shaped (s : HarmonicExplorer) : Prop :=
  length (positions s) = length (velocities s).

(** Two objects with the same configuration and the same clock, whatever
    their particles are. *)
Definition same_setting (a b : HarmonicExplorer) : Prop :=
  p_radial a = p_radial b /\ p_tangential a = p_tangential b /\
  damping a = damping b /\ dt a = dt b /\ base_freq a = base_freq b /\
  force_amplitude a = force_amplitude b /\ t a = t b.

End Simulator.

Arguments HarmonicExplorer F : clear implicits.
Arguments vec F : clear implicits.

(** ** The binary64 instance *)

(** numpy's [sin], [cos] and [arctan2] are not part of the repository and are
    not correctly rounded, so their values at ordinary arguments are left to
    a parameter.  What IEEE 754 and C99 Annex F fix for every implementation
    is written out in [b64_sin], [b64_cos] and [b64_arctan2] below. *)
Record Libm : Type := mkLibm {
  lm_sin : float -> float;
  lm_cos : float -> float;
  lm_arctan2 : float -> float -> float
}.

Module B64.

Local Open Scope float_scope.

(** NaN in, NaN out; the sine of an infinity is NaN; [sin(+-0) = +-0]. *)
Definition b64_sin (lm : Libm) (x : float) : float :=
  if is_nan x || is_infinity x then nan
  else if is_zero x then x
  else lm_sin lm x.

(** NaN in, NaN out; the cosine of an infinity is NaN; [cos(+-0) = 1]. *)
Definition b64_cos (lm : Libm) (x : float) : float :=
  if is_nan x || is_infinity x then nan
  else if is_zero x then 1
  else lm_cos lm x.

(** [np.pi]. *)
Definition b64_pi : float := 0x1.921fb54442d18p+1.

(** NaN in, NaN out; [arctan2(+-0, x)] is [+-0] when [x] is positive or
    [+0], and [+-pi] when [x] is negative or [-0]. *)
Definition b64_arctan2 (lm : Libm) (y x : float) : float :=
  if is_nan y || is_nan x then nan
  else if is_zero y then
    if get_sign x then (if get_sign y then - b64_pi else b64_pi) else y
  else lm_arctan2 lm y x.

(** The float nearest to an integer (round to nearest, ties to even). *)
Definition float_of_Z (z : Z) : float :=
  SF2Prim (binary_normalize prec emax z 0 false).

(** Python's [float(int)]: OverflowError when the nearest float is infinite.
    This is what [2 * np.pi * self.p_radial] does; the array product
    [self.p_tangential * theta] converts its integer operand the same way
    (NumPy 2 promotion rules). *)
Definition b64_of_int (z : Z) : option float :=
  let f := float_of_Z z in
  if is_infinity f then None else Some f.

(** A decimal literal [n/d] with [n] and [d] below [2^53] is the correctly
    rounded quotient of two exact floats. *)
Definition b64_lit (q : Q) : float :=
  float_of_Z (Qnum q) / float_of_Z (Zpos (Qden q)).

(** The rational number a finite float stands for. *)
Definition value (x : float) : option Q :=
  match Prim2SF x with
  | S754_zero _ => Some 0%Q
  | S754_finite s m e =>
      Some ((if s then - (Zpos m # 1) else (Zpos m # 1)) * Qpower 2 e)%Q
  | _ => None
  end.

(** [abs(x - q) <= 1e-9], computed exactly. *)
Definition near (x : float) (q : Q) : bool :=
  match value x with
  | Some v => Qle_bool (Qabs (v - q)) (1 # 1000000000)
  | None => false
  end.

(** [near] along a clock started at [x]: reading number [i + j] is within
    [1e-9] of [(i + j) * 0.01], for [j = 0 .. k]. *)
Fixpoint clock_near (k : nat) (i : Z) (x : float) : bool :=
  match k with
  | O => near x (i # 100)
  | S k' => near x (i # 100) && clock_near k' (i + 1) (x + b64_lit (1 # 100))
  end.


End B64.

(** The class of a float, read off its IEEE 754 decoding: a signed zero; a
    zero or any other finite number (neither NaN nor an infinity). *)
Definition sf_zero (x : spec_float) : bool :=
  match x with S754_zero _ => true | _ => false end.

Definition sf_finite (x : spec_float) : bool :=
  match x with S754_zero _ | S754_finite _ _ _ => true | _ => false end.

#[export] Instance binary64 (lm : Libm) : Arith float := {
  fadd := PrimFloat.add;
  fmul := PrimFloat.mul;
  fdiv := PrimFloat.div;
  fneg := PrimFloat.opp;
  feqb := PrimFloat.eqb;
  fsqrt := PrimFloat.sqrt;
  fsin := B64.b64_sin lm;
  fcos := B64.b64_cos lm;
  farctan2 := B64.b64_arctan2 lm;
  of_int := B64.b64_of_int;
  lit := B64.b64_lit;
  pi := B64.b64_pi
}.

(** Particle [i] lies on zeros with a velocity made of zeros. *)
Definition rests (s : HarmonicExplorer float) (i : nat) : bool :=
  match nth_error (positions s) i, nth_error (velocities s) i with
  | Some (x, y), Some (vx, vy) => is_zero x && is_zero y && is_zero vx && is_zero vy
  | _, _ => false
  end.

(** The two force magnitudes are finite at particle [i]; and they are over
    the next [k] frames. *)
Definition finite_field (lm : Libm) (s : HarmonicExplorer float) (i : nat) : bool :=
  match B64.b64_of_int (p_radial s), B64.b64_of_int (p_tangential s),
        nth_error (positions s) i with
  | Some pr, Some pt, Some (x, y) =>
      is_finite (F_radial_mag (AF := binary64 lm) s pr pt (B64.b64_arctan2 lm y x))
      && is_finite (F_tangential_mag (AF := binary64 lm) s pt)
  | _, _, _ => false
  end.

Fixpoint finite_field_run (lm : Libm) (k : nat) (s : HarmonicExplorer float) (i : nat)
  : bool :=
  match k with
  | O => true
  | S k' =>
      finite_field lm s i
      && match update (AF := binary64 lm) s with
         | Ok (s1, _) => finite_field_run lm k' s1 i
         | Raise _ => false
         end
  end.


(** ** The exact instance *)

Module Exact.

Local Open Scope R_scope.

(** The angle of the point [(x, y)], in [(-pi, pi]]. *)
Definition arctan2 (y x : R) : R :=
  if Rlt_dec 0 x then atan (y / x)
  else if Rlt_dec x 0 then
    if Rle_dec 0 y then atan (y / x) + PI else atan (y / x) - PI
  else if Rlt_dec 0 y then PI / 2
  else if Rlt_dec y 0 then - PI / 2
  else 0.

Definition eqb (x y : R) : bool :=
  if Req_dec_T x y then true else false.

End Exact.

#[export] Instance exact : Arith R := {
  fadd := Rplus;
  fmul := Rmult;
  fdiv := Rdiv;
  fneg := Ropp;
  feqb := Exact.eqb;
  fsqrt := sqrt;
  fsin := sin;
  fcos := cos;
  farctan2 := Exact.arctan2;
  of_int := fun z => Some (IZR z);
  lit := Q2R;
  pi := PI
}.

(** ** Objects to run the model on *)

Module Demo.

Local Open Scope float_scope.

(** A stand-in for numpy's elementary functions at ordinary arguments: the
    first terms of their series.  It only serves to run [binary64] on
    concrete inputs. *)
Definition libm : Libm :=
  mkLibm (fun x => x - x * x * x / 6)
         (fun x => 1 - x * x / 2)
         (fun y x => y / x).

Definition arith : Arith float := binary64 libm.

(** An outcome of the random source: 0, 1/3, 2/4, 3/5, ... *)
Definition rng (i : nat) : float :=
  B64.float_of_Z (Z.of_nat i) / B64.float_of_Z (Z.of_nat i + 2).

(** The scenario of the specification: ratio 8:8, one particle at [(1, 0)]
    at rest, clock 0, the constants [__init__] sets. *)
Definition scenario : HarmonicExplorer float :=
  mkSim 8 8 1 (B64.b64_lit (98 # 100)) (B64.b64_lit (1 # 100))
        (B64.b64_lit (1 # 10)) (B64.b64_lit 1) (B64.b64_lit 0)
        [(B64.b64_lit 1, B64.b64_lit 0)] [(B64.b64_lit 0, B64.b64_lit 0)].

(** The same object one frame later. *)
Definition scenario_after : HarmonicExplorer float :=
  mkSim 8 8 1 (B64.b64_lit (98 # 100)) (B64.b64_lit (1 # 100))
        (B64.b64_lit (1 # 10)) (B64.b64_lit 1) (B64.b64_lit (1 # 100))
        [(B64.b64_lit 1, B64.b64_lit (1 # 10000))]
        [(B64.b64_lit 0, B64.b64_lit (1 # 100))].

(** The scenario with another value in the attribute [N], which [update]
    never reads. *)
Definition scenario_twin : HarmonicExplorer float :=
  mkSim 8 8 7 (B64.b64_lit (98 # 100)) (B64.b64_lit (1 # 100))
        (B64.b64_lit (1 # 10)) (B64.b64_lit 1) (B64.b64_lit 0)
        [(B64.b64_lit 1, B64.b64_lit 0)] [(B64.b64_lit 0, B64.b64_lit 0)].


Definition overflowing_phase : HarmonicExplorer float :=
  mkSim (10 ^ 308) 8 1 (B64.b64_lit (98 # 100)) (B64.b64_lit (1 # 100))
        (B64.b64_lit (1 # 10)) (B64.b64_lit 1) (B64.b64_lit 0)
        [(B64.b64_lit 0, B64.b64_lit 0)] [(B64.b64_lit 0, B64.b64_lit 0)].

(** Two particles, the first at the origin with some velocity. *)
Definition passing_origin : HarmonicExplorer float :=
  mkSim 8 8 2 (B64.b64_lit (98 # 100)) (B64.b64_lit (1 # 100))
        (B64.b64_lit (1 # 10)) (B64.b64_lit 1) (B64.b64_lit (1 # 4))
        [(B64.b64_lit 0, - B64.b64_lit 0); (B64.b64_lit 1, B64.b64_lit 2)]
        [(B64.b64_lit 3, B64.b64_lit (-1 # 2)); (B64.b64_lit 0, B64.b64_lit 0)].

(** Two particles, the first at rest at the origin. *)
Definition resting : HarmonicExplorer float :=
  mkSim 8 8 2 (B64.b64_lit (98 # 100)) (B64.b64_lit (1 # 100))
        (B64.b64_lit (1 # 10)) (B64.b64_lit 1) (B64.b64_lit (1 # 4))
        [(B64.b64_lit 0, - B64.b64_lit 0); (B64.b64_lit 1, B64.b64_lit 2)]
        [(B64.b64_lit 0, B64.b64_lit 0); (B64.b64_lit 3, B64.b64_lit (-1 # 2))].

(** Exact-arithmetic objects: two particles, one of them at rest at the
    origin; with and without amplitude. *)
Definition at_origin : HarmonicExplorer R :=
  mkSim 8 8 2 (98 / 100)%R (1 / 100)%R (1 / 10)%R 1%R 0%R
        [(0, 0); (1, 0)]%R [(0, 0); (1 / 2, 0)]%R.

Definition unforced : HarmonicExplorer R :=
  mkSim 8 8 2 (98 / 100)%R (1 / 100)%R (1 / 10)%R 0%R 0%R
        [(0, 0); (1, 0)]%R [(0, 0); (1 / 2, 0)]%R.

(** [at_origin] one period of the base frequency later. *)
Definition one_period_later : HarmonicExplorer R :=
  mkSim 8 8 2 (98 / 100)%R (1 / 100)%R (1 / 10)%R 1%R (0 + 1 / (1 / 10))%R
        [(0, 0); (1, 0)]%R [(0, 0); (1 / 2, 0)]%R.

(** A particle and its image under a half-turn about the origin. *)
Definition mirrored : HarmonicExplorer R :=
  mkSim 8 8 2 (98 / 100)%R (1 / 100)%R (1 / 10)%R 1%R (1 / 4)%R
        [(1%R, 2%R); (Ropp 1, Ropp 2)]
        [((1 / 2)%R, 0%R); (Ropp (1 / 2), Ropp 0)].






(** Two particles, the first with a coordinate that is not a number. *)
Definition lost : HarmonicExplorer float :=
  mkSim 8 8 2 (B64.b64_lit (98 # 100)) (B64.b64_lit (1 # 100))
        (B64.b64_lit (1 # 10)) (B64.b64_lit 1) (B64.b64_lit (1 # 4))
        [(nan, B64.b64_lit 1); (B64.b64_lit 1, B64.b64_lit 2)]
        [(B64.b64_lit 0, B64.b64_lit 0); (B64.b64_lit 0, B64.b64_lit 0)].

(** [passing_origin] with its two particles in the other order. *)
Definition shuffled : HarmonicExplorer float :=
  mkSim 8 8 2 (B64.b64_lit (98 # 100)) (B64.b64_lit (1 # 100))
        (B64.b64_lit (1 # 10)) (B64.b64_lit 1) (B64.b64_lit (1 # 4))
        [(B64.b64_lit 1, B64.b64_lit 2); (B64.b64_lit 0, - B64.b64_lit 0)]
        [(B64.b64_lit 0, B64.b64_lit 0); (B64.b64_lit 3, B64.b64_lit (-1 # 2))].

(** A random source that agrees with [rng] on its first four outcomes. *)
Definition rng_then_zero (i : nat) : float :=
  if (i <? 4)%nat then rng i else 0.

End Demo.

(** ** The animation callback *)

(** What [animate] needs beyond the arithmetic of the simulator: [np.abs],
    the maximum [np.max] folds with, the test [lim > 0], and the test
    [np.isfinite] that matplotlib makes on an axis limit. *)
Class Display (F : Type) : Type := {
  fabs : F -> F;
  fmax : F -> F -> F;
  fpos : F -> bool;
  ffinite : F -> bool
}.

Module B64_display.

Local Open Scope float_scope.

(** numpy's [maximum]: [(a >= b || isnan(a)) ? a : b], so a NaN on either
    side comes out. *)
Definition b64_max (a b : float) : float :=
  if (b <=? a) || is_nan a then a else b.

End B64_display.

#[export] Instance binary64_display : Display float := {
  fabs := PrimFloat.abs;
  fmax := B64_display.b64_max;
  fpos := fun x => PrimFloat.ltb 0%float x;
  ffinite := PrimFloat.is_finite
}.

#[export] Instance exact_display : Display R := {
  fabs := Rabs;
  fmax := Rmax;
  fpos := fun x => if Rlt_dec 0 x then true else false;
  ffinite := fun _ => true
}.

Section Animation.

Context {F : Type} {AF : Arith F} {DF : Display F}.

Local Open Scope arith_scope.

(** What one call of [animate] leaves on the plot: the array handed to
    [scatter.set_offsets], and the limit handed as [(-lim, lim)] to both
    [ax.set_xlim] and [ax.set_ylim] when they are called. *)
Record Frame : Type := mkFrame {
  offsets : list (vec F);
  limit : option F
}.

(** The elements of an N x 2 array in C order. *)
Definition flat (pos : list (vec F)) : list F :=
  flat_map (fun p => [fst p; snd p]) pos.

(** [np.max(np.abs(positions))]; there is no maximum of an empty array. *)
Definition max_abs (pos : list (vec F)) : result F :=
  match map fabs (flat pos) with
  | [] => Raise ValueError
  | a :: l => Ok (fold_left fmax l a)
  end.

(** [animate(frame)]: one [update], then the calls on the plot.  The
    argument [frame] is not read.  [ax.set_xlim] raises ValueError for a
    limit that is NaN or infinite; what is left of the object and the plot
    after an exception is not modelled. *)
Definition animate (s : HarmonicExplorer F) : result (HarmonicExplorer F * Frame) :=
  match update s with
  | Ok (s', positions) =>
      match max_abs positions with
      | Ok m =>
          let lim := m * lit (12 # 10) in
          if fpos lim then
            if ffinite lim then Ok (s', mkFrame positions (Some lim))
            else Raise ValueError
          else Ok (s', mkFrame positions None)
      | Raise e => Raise e
      end
  | Raise e => Raise e
  end.

(** [k] calls of [animate] in a row, as the animation makes them. *)
Fixpoint animation (k : nat) (s : HarmonicExplorer F)
  : result (HarmonicExplorer F * list Frame) :=
  match k with
  | O => Ok (s, [])
  | S k' =>
      match animate s with
      | Ok (s1, f) =>
          match animation k' s1 with
          | Ok (s2, fs) => Ok (s2, f :: fs)
          | Raise e => Raise e
          end
      | Raise e => Raise e
      end
  end.



End Animation.

Arguments Frame F : clear implicits.

(** * Properties of the arrays *)

Section Arrays.

Context {A B C : Type}.
Variable f : A -> B -> C.

Lemma zip_with_length (l : list A) (m : list B) :
  length l = length m -> length (zip_with f l m) = length l.
Proof.
  revert m; induction l as [|a l IH]; intros [|b m] H; simpl in *; try congruence.
  f_equal; apply IH; congruence.
Qed.

Lemma nth_error_zip_with (l : list A) (m : list B) (i : nat) (a : A) (b : B) :
  nth_error l i = Some a -> nth_error m i = Some b ->
  nth_error (zip_with f l m) i = Some (f a b).
Proof.
  revert m i; induction l as [|a0 l IH]; intros [|b0 m] [|i] Ha Hb;
    simpl in *; try congruence.
  now apply IH.
Qed.

Lemma nth_error_same_length (l : list A) (m : list B) (i : nat) (a : A) :
  length l = length m -> nth_error l i = Some a -> exists b, nth_error m i = Some b.
Proof.
  intros Hlen Ha.
  destruct (nth_error m i) as [b|] eqn:Hb; [now exists b|].
  apply nth_error_None in Hb.
  assert (i < length l)%nat by (apply nth_error_Some; congruence).
  lia.
Qed.

End Arrays.

(** * Properties that hold in every arithmetic *)

Section Frame.

Context {F : Type} {AF : Arith F}.
Local Open Scope arith_scope.

Lemma update_ok_inv (s s' : HarmonicExplorer F) (out : list (vec F)) :
  update s = Ok (s', out) ->
  exists pr pt,
    of_int (p_radial s) = Some pr /\ of_int (p_tangential s) = Some pt /\
    well_shaped s /\ s' = next s pr pt /\ out = positions s'.
Proof.
  unfold update, well_shaped.
  destruct (of_int (p_radial s)) as [pr|]; [|discriminate].
  destruct (of_int (p_tangential s)) as [pt|]; [|discriminate].
  destruct (Nat.eqb_spec (length (velocities s)) (length (positions s))) as [E|E];
    [|discriminate].
  intros H; injection H as <- <-.
  exists pr, pt; repeat split; auto.
Qed.

Lemma update_total (s : HarmonicExplorer F) (pr pt : F) :
  of_int (p_radial s) = Some pr -> of_int (p_tangential s) = Some pt ->
  well_shaped s ->
  update s = Ok (next s pr pt, positions (next s pr pt)).
Proof.
  unfold update, well_shaped; intros -> -> H.
  rewrite <- H, Nat.eqb_refl. reflexivity.
Qed.

(** [update] returns exactly when both ratios convert and the arrays have
    the same number of rows. *)
Lemma update_is_ok (s : HarmonicExplorer F) :
  is_ok (update s) = true <->
  of_int (p_radial s) <> None /\ of_int (p_tangential s) <> None /\ well_shaped s.
Proof.
  unfold update, well_shaped.
  destruct (of_int (p_radial s)) as [pr|], (of_int (p_tangential s)) as [pt|];
    simpl; try (split; [discriminate|intros (H1 & H2 & _); congruence]).
  destruct (Nat.eqb_spec (length (velocities s)) (length (positions s))) as [E|E];
    simpl; split; try discriminate; try congruence.
  - intros _. repeat split; congruence.
  - intros (_ & _ & H). congruence.
Qed.

Lemma next_well_shaped (s : HarmonicExplorer F) (pr pt : F) :
  well_shaped s -> well_shaped (next s pr pt).
Proof.
  unfold well_shaped; intros H; simpl.
  assert (Hk : length (zip_with (kick s) (velocities s)
                         (map (force s pr pt) (positions s))) = length (velocities s))
    by (apply zip_with_length; rewrite length_map; congruence).
  rewrite zip_with_length; congruence.
Qed.

(** Row [i] of both arrays after one frame. *)
Lemma next_row (s : HarmonicExplorer F) (pr pt : F) (i : nat) (p v : vec F) :
  nth_error (positions s) i = Some p ->
  nth_error (velocities s) i = Some v ->
  nth_error (velocities (next s pr pt)) i = Some (kick s v (force s pr pt p)) /\
  nth_error (positions (next s pr pt)) i
    = Some (drift s p (kick s v (force s pr pt p))).
Proof.
  intros Hp Hv; simpl.
  assert (Hk : nth_error (zip_with (kick s) (velocities s)
                            (map (force s pr pt) (positions s))) i
               = Some (kick s v (force s pr pt p))).
  { apply nth_error_zip_with; [assumption|].
    rewrite nth_error_map, Hp; reflexivity. }
  split; [assumption|].
  now apply nth_error_zip_with.
Qed.

End Frame.

(** * Force field and integration *)

Section Physics.

Context {F : Type} {AF : Arith F}.
Local Open Scope arith_scope.

(** C1. In every [update] that returns, the velocity of each particle is
    kicked by the force built from
    [F_radial = A sin(2 pi p_radial f t) cos(p_tangential theta)] and
    [F_tangential = A cos(2 pi p_tangential f t)], where [t] is the clock
    before the call and [theta = arctan2(y, x)] belongs to the particle;
    [F_tangential] is a single value for the whole call. *)
Theorem update_force_magnitudes (s s' : HarmonicExplorer F) (out : list (vec F)) :
  update s = Ok (s', out) ->
  exists pr pt Ft,
    of_int (p_radial s) = Some pr /\ of_int (p_tangential s) = Some pt /\
    Ft = force_amplitude s * fcos (lit 2 * pi * pt * base_freq s * t s) /\
    forall i x y, nth_error (positions s) i = Some (x, y) ->
      exists v Fr,
        nth_error (velocities s) i = Some v /\
        Fr = force_amplitude s * fsin (lit 2 * pi * pr * base_freq s * t s)
               * fcos (pt * farctan2 y x) /\
        nth_error (velocities s') i
          = Some (kick s v (x / radius x y * Fr + (- y) / radius x y * Ft,
                            y / radius x y * Fr + x / radius x y * Ft)).
Proof.
  intros H.
  destruct (update_ok_inv _ _ _ H) as (pr & pt & Hpr & Hpt & Hws & -> & _).
  exists pr, pt, (F_tangential_mag s pt); repeat split; auto.
  intros i x y Hp.
  destruct (nth_error_same_length (positions s) (velocities s) i _ Hws Hp) as [v Hv].
  exists v, (F_radial_mag s pr pt (farctan2 y x)); repeat split; auto.
  now destruct (next_row s pr pt i _ _ Hp Hv) as [-> _].
Qed.

(** C2. Damping comes first, then the force, then the position step with
    the velocity just computed: [v <- v * damping], [v <- v + F * dt],
    [p <- p + v * dt], where [F = F_radial * (x/r, y/r) + F_tangential * (-y/r, x/r)]. *)
Theorem update_integration_order (s s' : HarmonicExplorer F) (out : list (vec F))
  (i : nat) (x y vx vy : F) :
  update s = Ok (s', out) ->
  nth_error (positions s) i = Some (x, y) ->
  nth_error (velocities s) i = Some (vx, vy) ->
  exists pr pt,
    of_int (p_radial s) = Some pr /\ of_int (p_tangential s) = Some pt /\
    let r := radius x y in
    let Fr := F_radial_mag s pr pt (farctan2 y x) in
    let Ft := F_tangential_mag s pt in
    let Fx := x / r * Fr + (- y) / r * Ft in
    let Fy := y / r * Fr + x / r * Ft in
    let vx1 := vx * damping s in
    let vy1 := vy * damping s in
    let vx2 := vx1 + Fx * dt s in
    let vy2 := vy1 + Fy * dt s in
    nth_error (velocities s') i = Some (vx2, vy2) /\
    nth_error (positions s') i = Some (x + vx2 * dt s, y + vy2 * dt s) /\
    nth_error out i = Some (x + vx2 * dt s, y + vy2 * dt s).
Proof.
  intros H Hp Hv.
  destruct (update_ok_inv _ _ _ H) as (pr & pt & Hpr & Hpt & Hws & -> & ->).
  exists pr, pt; repeat split; auto;
    now destruct (next_row s pr pt i _ _ Hp Hv) as [Hv' Hp'].
Qed.

End Physics.

Section Physics_witnesses.

#[local] Existing Instance Demo.arith.

Lemma update_force_magnitudes_witness :
  update Demo.scenario
    = Ok (Demo.scenario_after, positions Demo.scenario_after) /\
  exists pr pt Ft,
    B64.b64_of_int 8 = Some pr /\ B64.b64_of_int 8 = Some pt /\
    Ft = F_tangential_mag Demo.scenario pt /\
    forall i x y, nth_error (positions Demo.scenario) i = Some (x, y) ->
      exists v Fr,
        nth_error (velocities Demo.scenario) i = Some v /\
        Fr = F_radial_mag Demo.scenario pr pt (farctan2 y x) /\
        nth_error (velocities Demo.scenario_after) i
          = Some (kick Demo.scenario v
                    (x / radius x y * Fr + (- y) / radius x y * Ft,
                     y / radius x y * Fr + x / radius x y * Ft)%float).
Proof.
  assert (H : update Demo.scenario
              = Ok (Demo.scenario_after, positions Demo.scenario_after))
    by (vm_compute; reflexivity).
  split; [exact H|].
  exact (update_force_magnitudes Demo.scenario _ _ H).
Defined.

Lemma update_integration_order_witness :
  update Demo.scenario
    = Ok (Demo.scenario_after, positions Demo.scenario_after) /\
  nth_error (positions Demo.scenario) 0 = Some (B64.b64_lit 1, B64.b64_lit 0) /\
  nth_error (velocities Demo.scenario) 0 = Some (B64.b64_lit 0, B64.b64_lit 0) /\
  exists pr pt,
    B64.b64_of_int 8 = Some pr /\ B64.b64_of_int 8 = Some pt /\
    nth_error (velocities Demo.scenario_after) 0
      = Some (kick Demo.scenario (B64.b64_lit 0, B64.b64_lit 0)
                (force Demo.scenario pr pt (B64.b64_lit 1, B64.b64_lit 0))).
Proof.
  assert (H : update Demo.scenario
              = Ok (Demo.scenario_after, positions Demo.scenario_after))
    by (vm_compute; reflexivity).
  repeat split; try exact H.
  destruct (update_integration_order Demo.scenario _ _ 0%nat
              (B64.b64_lit 1) (B64.b64_lit 0) (B64.b64_lit 0) (B64.b64_lit 0)
              H eq_refl eq_refl) as (pr & pt & Hpr & Hpt & Hv & _).
  exists pr, pt; repeat split; assumption.
Defined.

End Physics_witnesses.

(** * Determinism *)

Section Determinism.

Context {F : Type} {AF : Arith F}.

Lemma update_same_physics (a b : HarmonicExplorer F) :
  same_physics a b ->
  match update a, update b with
  | Ok (a', fa), Ok (b', fb) => fa = fb /\ same_physics a' b'
  | Raise ea, Raise eb => ea = eb
  | _, _ => False
  end.
Proof.
  destruct a as [pra pta na da dta fa aa ta posa vela].
  destruct b as [prb ptb nb db dtb fb ab tb posb velb].
  unfold same_physics; simpl.
  intros (-> & -> & -> & -> & -> & -> & -> & -> & ->).
  unfold update; simpl.
  destruct (of_int prb) as [pr|]; [|reflexivity].
  destruct (of_int ptb) as [pt|]; [|reflexivity].
  destruct (length velb =? length posb)%nat; [|reflexivity].
  simpl; repeat split; reflexivity.
Qed.

(** Two objects with the same configuration, clock, positions and
    velocities hand back the same sequence of position arrays over any
    number of [update] calls (and fail alike if they fail). *)
Theorem update_deterministic (k : nat) (a b : HarmonicExplorer F) :
  same_physics a b ->
  match run k a, run k b with
  | Ok (a', frames_a), Ok (b', frames_b) =>
      frames_a = frames_b /\ same_physics a' b'
  | Raise ea, Raise eb => ea = eb
  | _, _ => False
  end.
Proof.
  revert a b; induction k as [|k IH]; intros a b H; simpl.
  - split; [reflexivity|assumption].
  - pose proof (update_same_physics _ _ H) as Hu.
    destruct (update a) as [[a1 fa]|ea], (update b) as [[b1 fb]|eb];
      try contradiction; [|assumption].
    destruct Hu as [-> Hs].
    specialize (IH a1 b1 Hs).
    destruct (run k a1) as [[a2 fsa]|ea], (run k b1) as [[b2 fsb]|eb];
      try contradiction; [|assumption].
    destruct IH as [-> Hs2]; split; [reflexivity|assumption].
Qed.

End Determinism.

Lemma update_deterministic_witness :
  same_physics Demo.scenario Demo.scenario_twin /\
  match run (AF := binary64 Demo.libm) 3 Demo.scenario,
        run (AF := binary64 Demo.libm) 3 Demo.scenario_twin with
  | Ok (a', frames_a), Ok (b', frames_b) =>
      frames_a = frames_b /\ same_physics a' b'
  | Raise ea, Raise eb => ea = eb
  | _, _ => False
  end.
Proof.
  assert (H : same_physics Demo.scenario Demo.scenario_twin)
    by (repeat split; reflexivity).
  split; [exact H|].
  exact (@update_deterministic float (binary64 Demo.libm) 3 _ _ H).
Defined.

(** * The reference trajectory *)

(** The literals of the source denote the same floats as in Python. *)
Lemma b64_literals :
  B64.b64_lit (1 # 100) = 0x1.47ae147ae147bp-7%float /\
  B64.b64_lit (1 # 10) = 0x1.999999999999ap-4%float /\
  B64.b64_lit (98 # 100) = 0x1.f5c28f5c28f5cp-1%float /\
  B64.b64_lit (1 # 1000000000) = 0x1.12e0be826d695p-30%float /\
  B64.b64_lit 0 = 0%float /\ B64.b64_lit 1 = 1%float /\
  B64.b64_lit 2 = 2%float /\ B64.b64_lit 3 = 3%float.
Proof. vm_compute. repeat split. Qed.

(** C3. Ratio 8:8, one particle at [(1, 0)] at rest, clock 0, damping 0.98,
    time step 0.01, base frequency 0.1, amplitude 1: the first [update]
    returns [(1, 0.0001)], leaves the velocity at [(0, 0.01)] and the clock
    at [0.01].  In binary64 the five values are the floats nearest to these
    decimals, hence within [1e-9] of them, whatever the elementary functions
    do away from 0. *)
Theorem scenario_first_update (lm : Libm) :
  update (AF := binary64 lm) Demo.scenario
  = Ok (Demo.scenario_after, [(B64.b64_lit 1, B64.b64_lit (1 # 10000))]) /\
  velocities Demo.scenario_after = [(B64.b64_lit 0, B64.b64_lit (1 # 100))] /\
  t Demo.scenario_after = B64.b64_lit (1 # 100) /\
  B64.near (B64.b64_lit 1) 1 = true /\
  B64.near (B64.b64_lit (1 # 10000)) (1 # 10000) = true /\
  B64.near (B64.b64_lit 0) 0 = true /\
  B64.near (B64.b64_lit (1 # 100)) (1 # 100) = true.
Proof. vm_compute. repeat split. Qed.

(** * Construction *)

Section Construction.

Context {F : Type} {AF : Arith F}.
Local Open Scope arith_scope.

Lemma rand_length (rng : nat -> F) (start n : nat) : length (rand rng start n) = n.
Proof. unfold rand; now rewrite length_map, length_seq. Qed.

Lemma initialize_ok (rng : nat -> F) (s : HarmonicExplorer F) :
  (0 <= N s)%Z ->
  exists pos,
    _initialize_particles rng s
    = Ok (mkSim (p_radial s) (p_tangential s) (N s) (damping s) (dt s)
                (base_freq s) (force_amplitude s) (t s)
                pos (map (fun _ => (lit 0, lit 0)) pos)) /\
    length pos = Z.to_nat (N s) /\
    forall i, (i < Z.to_nat (N s))%nat ->
      nth_error pos i
      = Some (fsqrt (rng i) * lit 3 * fcos (lit 2 * pi * rng (Z.to_nat (N s) + i)%nat),
              fsqrt (rng i) * lit 3 * fsin (lit 2 * pi * rng (Z.to_nat (N s) + i)%nat)).
Proof.
  intros Hn. unfold _initialize_particles.
  destruct (Z.ltb_spec (N s) 0) as [Hlt|_]; [lia|].
  set (n := Z.to_nat (N s)).
  eexists; split; [reflexivity|]; split.
  - rewrite zip_with_length; rewrite !length_map, !rand_length; reflexivity.
  - intros i Hi.
    apply (nth_error_zip_with (fun r th => (r * fcos th, r * fsin th))).
    + unfold rand. rewrite !nth_error_map, nth_error_seq.
      destruct (Nat.ltb_spec i n); [reflexivity|lia].
    + unfold rand. rewrite !nth_error_map, nth_error_seq.
      destruct (Nat.ltb_spec i n); [reflexivity|lia].
Qed.

Lemma init_total (p1 p2 n : Z) (d : F) (rng : nat -> F) :
  (0 <= n)%Z -> exists s, __init__ p1 p2 n d rng = Ok s.
Proof.
  intros Hn. unfold __init__.
  destruct (initialize_ok rng
              (mkSim p1 p2 n d (lit (1 # 100)) (lit (1 # 10)) (lit 1) (lit 0) [] []))
    as (pos & -> & _); [assumption|].
  now eexists.
Qed.

Lemma init_inv (p1 p2 n : Z) (d : F) (rng : nat -> F) (s : HarmonicExplorer F) :
  __init__ p1 p2 n d rng = Ok s ->
  dt s = lit (1 # 100) /\ t s = lit 0 /\ well_shaped s.
Proof.
  unfold __init__, _initialize_particles, well_shaped; simpl.
  destruct (n <? 0)%Z; [discriminate|].
  intros H; injection H as <-; simpl.
  rewrite length_map. auto.
Qed.


End Construction.


(** * Sequences of frames *)

Section Runs.

Context {F : Type} {AF : Arith F}.
Local Open Scope arith_scope.

Lemma run_succ_inv (k : nat) (s sk : HarmonicExplorer F) (frames : list (list (vec F))) :
  run (S k) s = Ok (sk, frames) ->
  exists s1 out rest,
    update s = Ok (s1, out) /\ run k s1 = Ok (sk, rest) /\ frames = out :: rest.
Proof.
  simpl. destruct (update s) as [[s1 out]|e]; [|discriminate].
  destruct (run k s1) as [[s2 rest]|e] eqn:Hr; [|discriminate].
  intros H; injection H as <- <-. now exists s1, out, rest.
Qed.

(** A property kept by every frame is kept by every run. *)
Lemma run_invariant (P : HarmonicExplorer F -> Prop) :
  (forall s s' out, P s -> update s = Ok (s', out) -> P s') ->
  forall k s sk frames, P s -> run k s = Ok (sk, frames) -> P sk.
Proof.
  intros Hstep; induction k as [|k IH]; intros s sk frames HP Hrun.
  - simpl in Hrun. injection Hrun as <- _. assumption.
  - apply run_succ_inv in Hrun as (s1 & out & rest & Hu & Hr & _).
    eapply IH; [|exact Hr]. eapply Hstep; eassumption.
Qed.

(** [run] splits at any frame. *)
Lemma run_add (j k : nat) (s sj sk : HarmonicExplorer F) (fj fk : list (list (vec F))) :
  run j s = Ok (sj, fj) -> run k sj = Ok (sk, fk) ->
  run (j + k) s = Ok (sk, fj ++ fk).
Proof.
  revert s fj; induction j as [|j IH]; intros s fj Hj Hk.
  - simpl in Hj. injection Hj as <- <-. exact Hk.
  - apply run_succ_inv in Hj as (s1 & out & rest & Hu & Hr & ->).
    simpl. rewrite Hu, (IH _ _ Hr Hk). reflexivity.
Qed.

(** One frame advances the clock by the time step and leaves the
    configuration alone, however many particles there are. *)
Lemma update_clock (s s' : HarmonicExplorer F) (out : list (vec F)) :
  update s = Ok (s', out) ->
  t s' = t s + dt s /\ dt s' = dt s /\ damping s' = damping s /\
  base_freq s' = base_freq s /\ force_amplitude s' = force_amplitude s /\
  p_radial s' = p_radial s /\ p_tangential s' = p_tangential s /\ N s' = N s /\
  well_shaped s'.
Proof.
  intros H. destruct (update_ok_inv _ _ _ H) as (pr & pt & _ & _ & Hws & -> & _).
  repeat split; try reflexivity. now apply next_well_shaped.
Qed.

(** After [k] frames the clock has been advanced [k] times. *)
Lemma run_clock_iter (k : nat) (s sk : HarmonicExplorer F) (frames : list (list (vec F))) :
  run k s = Ok (sk, frames) ->
  dt sk = dt s /\ t sk = Nat.iter k (fun x => x + dt s) (t s).
Proof.
  revert s frames; induction k as [|k IH]; intros s frames H.
  - simpl in H. injection H as <- _. now split.
  - apply run_succ_inv in H as (s1 & out & rest & Hu & Hr & _).
    apply update_clock in Hu as (Ht & Hdt & _).
    destruct (IH _ _ Hr) as [Hdt' Ht'].
    rewrite Hdt', Ht', Hdt, Ht, Nat.iter_succ_r. now split.
Qed.

Lemma run_keeps_shape (k : nat) (s sk : HarmonicExplorer F) (frames : list (list (vec F))) :
  well_shaped s -> run k s = Ok (sk, frames) -> well_shaped sk.
Proof.
  intros Hs Hr.
  eapply run_invariant with (P := well_shaped); [|exact Hs|exact Hr].
  intros a a' out _ Hu. now apply update_clock in Hu.
Qed.

Lemma init_well_shaped (p1 p2 n : Z) (d : F) (rng : nat -> F) (s : HarmonicExplorer F) :
  __init__ p1 p2 n d rng = Ok s -> well_shaped s.
Proof.
  intros H. now apply init_inv in H.
Qed.

End Runs.

(** * The clock, in exact arithmetic *)

Section Clock.

Local Open Scope R_scope.

Lemma exact_update_total (s : HarmonicExplorer R) :
  well_shaped s ->
  update s = Ok (next s (IZR (p_radial s)) (IZR (p_tangential s)),
                 positions (next s (IZR (p_radial s)) (IZR (p_tangential s)))).
Proof. intros H. now apply update_total. Qed.

Lemma exact_run_total (k : nat) (s : HarmonicExplorer R) :
  well_shaped s -> exists sk frames, run k s = Ok (sk, frames).
Proof.
  revert s; induction k as [|k IH]; intros s H; simpl.
  - now exists s, [].
  - rewrite (exact_update_total s H).
    destruct (IH _ (next_well_shaped s (IZR (p_radial s)) (IZR (p_tangential s)) H))
      as (sk & frames & ->).
    now eexists _, _.
Qed.

Lemma exact_run_clock (k : nat) (s sk : HarmonicExplorer R) (frames : list (list (vec R))) :
  run k s = Ok (sk, frames) ->
  dt sk = dt s /\ t sk = t s + INR k * dt s.
Proof.
  revert s frames; induction k as [|k IH]; intros s frames H.
  - simpl in H. injection H as <- _. simpl. split; [reflexivity|lra].
  - apply run_succ_inv in H as (s1 & out & rest & Hu & Hr & _).
    apply update_clock in Hu as (Ht & Hdt & _).
    destruct (IH _ _ Hr) as [Hdt' Ht'].
    rewrite Hdt', Ht', Hdt, Ht, S_INR. simpl. split; [reflexivity|lra].
Qed.

(** The clock in exact arithmetic: it is 0 after construction; each [update] adds the time
    step to it once, whatever the number of particles, so after [j] calls it
    reads [j * 0.01]; it never goes back: [k] more calls later it reads
    [(j + k) * 0.01].  Stated in exact arithmetic, of which the float64
    clock is the rounded image. *)
Theorem clock_after_calls (p1 p2 n : Z) (d : R) (rng : nat -> R)
  (s0 sj sk : HarmonicExplorer R) (j k : nat) (fj fk : list (list (vec R))) :
  __init__ p1 p2 n d rng = Ok s0 ->
  run j s0 = Ok (sj, fj) ->
  run k sj = Ok (sk, fk) ->
  t s0 = 0 /\ dt s0 = 1 / 100 /\
  dt sj = dt s0 /\ t sj = INR j * dt s0 /\
  t sk = t sj + INR k * dt s0 /\
  t sj <= t sk.
Proof.
  intros Hinit Hj Hk.
  destruct (init_inv _ _ _ _ _ _ Hinit) as (Hdt & Ht & _).
  assert (Ht0 : t s0 = 0) by (rewrite Ht; simpl; unfold Q2R; simpl; lra).
  assert (Hdt0 : dt s0 = 1 / 100) by (rewrite Hdt; simpl; unfold Q2R; simpl; lra).
  destruct (exact_run_clock _ _ _ _ Hj) as [Hdj Htj].
  destruct (exact_run_clock _ _ _ _ Hk) as [Hdk Htk].
  rewrite Htk, Htj, Hdj, Ht0, Hdt0.
  repeat split; try lra.
  pose proof (pos_INR k). nra.
Qed.

End Clock.

Lemma clock_after_calls_witness :
  exists s0 sj sk fj fk,
    __init__ (AF := exact) 8 8 3 (98 / 100)%R (fun _ => (1 / 4)%R) = Ok s0 /\
    run 2 s0 = Ok (sj, fj) /\
    run 5 sj = Ok (sk, fk) /\
    (t s0 = 0 /\ dt s0 = 1 / 100 /\ dt sj = dt s0 /\ t sj = INR 2 * dt s0 /\
     t sk = t sj + INR 5 * dt s0 /\ t sj <= t sk)%R.
Proof.
  destruct (init_total (AF := exact) 8 8 3 (98 / 100)%R (fun _ => (1 / 4)%R))
    as [s0 Hi]; [lia|].
  assert (Hws : well_shaped s0) by (eapply init_well_shaped; exact Hi).
  destruct (exact_run_total 2 _ Hws) as (sj & fj & Hj).
  assert (Hwj : well_shaped sj) by (eapply run_keeps_shape; [exact Hws|exact Hj]).
  destruct (exact_run_total 5 _ Hwj) as (sk & fk & Hk).
  exists s0, sj, sk, fj, fk.
  pose proof (clock_after_calls _ _ _ _ _ _ _ _ _ _ _ _ Hi Hj Hk) as Hc.
  exact (conj Hi (conj Hj (conj Hk Hc))).
Defined.

(** * The initial cloud, in exact arithmetic *)

Section Cloud.

Local Open Scope R_scope.

Lemma exact_lit_values :
  Q2R 0 = 0 /\ Q2R 1 = 1 /\ Q2R 2 = 2 /\ Q2R 3 = 3 /\
  Q2R (1 # 100) = 1 / 100 /\ Q2R (1 # 10) = 1 / 10 /\
  Q2R (1 # 1000000000) = 1 / 1000000000.
Proof. unfold Q2R; simpl; repeat split; lra. Qed.



End Cloud.


(** * Damping and the origin, in exact arithmetic *)

Section Damping.

Local Open Scope R_scope.

Lemma zip_with_map_r {A B C D : Type} (f : A -> C -> D) (g : B -> C) (h : A -> D)
  (l : list A) (m : list B) :
  length l = length m ->
  (forall a b, f a (g b) = h a) ->
  zip_with f l (map g m) = map h l.
Proof.
  intros Hlen Hf; revert m Hlen; induction l as [|a l IH]; intros [|b m] Hlen;
    simpl in *; try congruence.
  rewrite Hf, IH by congruence. reflexivity.
Qed.

(** Without amplitude there is no force. *)
Lemma exact_force_zero (s : HarmonicExplorer R) (pr pt : R) (p : vec R) :
  force_amplitude s = 0 -> force s pr pt p = (0, 0).
Proof.
  intros HA. destruct p as [x y].
  unfold force, F_radial_mag, F_tangential_mag; simpl. rewrite HA.
  f_equal; unfold Rdiv; ring.
Qed.

Lemma exact_kick_zero (s : HarmonicExplorer R) (v : vec R) :
  kick s v (0, 0) = scale (damping s) v.
Proof. unfold kick, scale; simpl. f_equal; ring. Qed.

Lemma exact_next_velocities (s : HarmonicExplorer R) (pr pt : R) :
  force_amplitude s = 0 -> well_shaped s ->
  velocities (next s pr pt) = map (scale (damping s)) (velocities s).
Proof.
  intros HA Hws; simpl.
  apply zip_with_map_r; [symmetry; exact Hws|].
  intros v p. rewrite (exact_force_zero s pr pt p HA). apply exact_kick_zero.
Qed.

Lemma scale_scale (c1 c2 : R) (l : list (vec R)) :
  map (scale c2) (map (scale c1) l) = map (scale (c1 * c2)) l.
Proof.
  rewrite map_map. apply map_ext. intros [x y]; unfold scale; simpl.
  f_equal; ring.
Qed.

Lemma exact_run_velocities (k : nat) (s sk : HarmonicExplorer R)
  (frames : list (list (vec R))) :
  force_amplitude s = 0 -> well_shaped s ->
  run k s = Ok (sk, frames) ->
  velocities sk = map (scale (damping s ^ k)) (velocities s).
Proof.
  revert s frames; induction k as [|k IH]; intros s frames HA Hws H.
  - simpl in H. injection H as <- _. simpl.
    rewrite <- (map_id (velocities s)) at 1. apply map_ext.
    intros [x y]; unfold scale; simpl. f_equal; ring.
  - apply run_succ_inv in H as (s1 & out & rest & Hu & Hr & _).
    pose proof (update_clock _ _ _ Hu) as (_ & _ & Hd & _ & HA1 & _ & _ & _ & Hws1).
    destruct (update_ok_inv _ _ _ Hu) as (pr & pt & _ & _ & _ & Hs1 & _).
    rewrite (IH s1 rest) by (congruence || assumption).
    rewrite Hd, Hs1, (exact_next_velocities s pr pt HA Hws), scale_scale.
    reflexivity.
Qed.

(** Every component of an array is bounded by some [M]. *)
Lemma velocities_bounded (l : list (vec R)) :
  exists M, 0 <= M /\ forall v, In v l -> Rabs (fst v) <= M /\ Rabs (snd v) <= M.
Proof.
  induction l as [|[x y] l (M & HM & IH)].
  - exists 0; split; [lra|]. intros v [].
  - exists (M + Rabs x + Rabs y).
    pose proof (Rabs_pos x). pose proof (Rabs_pos y).
    split; [lra|]. intros v [<-|Hin]; simpl.
    + lra.
    + destruct (IH v Hin). lra.
Qed.

(** In exact arithmetic, with zero amplitude every [update] multiplies each velocity
    component by the damping factor, so after [k] calls by its [k]-th power;
    with [0 < damping < 1] no component grows in absolute value and all of
    them tend to 0. *)
Theorem damping_without_force (s : HarmonicExplorer R) :
  force_amplitude s = 0 ->
  well_shaped s ->
  (forall s' out, update s = Ok (s', out) ->
     velocities s' = map (scale (damping s)) (velocities s)) /\
  (forall k, exists sk frames,
     run k s = Ok (sk, frames) /\
     velocities sk = map (scale (damping s ^ k)) (velocities s)) /\
  (0 < damping s < 1 ->
     (forall v, Rabs (fst (scale (damping s) v)) <= Rabs (fst v) /\
                Rabs (snd (scale (damping s) v)) <= Rabs (snd v)) /\
     (forall eps, 0 < eps ->
        exists K, forall k sk frames, (K <= k)%nat ->
          run k s = Ok (sk, frames) ->
          forall v, In v (velocities sk) ->
            Rabs (fst v) < eps /\ Rabs (snd v) < eps)).
Proof.
  intros HA Hws. split; [|split].
  - intros s' out Hu.
    destruct (update_ok_inv _ _ _ Hu) as (pr & pt & _ & _ & _ & -> & _).
    now apply exact_next_velocities.
  - intros k. destruct (exact_run_total k s Hws) as (sk & frames & Hr).
    exists sk, frames; split; [assumption|].
    eapply exact_run_velocities; eassumption.
  - intros [Hd0 Hd1]. split.
    + intros [x y]; unfold scale; simpl.
      rewrite !Rabs_mult, (Rabs_pos_eq (damping s)) by lra.
      pose proof (Rabs_pos x). pose proof (Rabs_pos y). split; nra.
    + intros eps Heps.
      destruct (velocities_bounded (velocities s)) as (M & HM & Hb).
      assert (Hq : 0 < eps / (M + 1)) by (apply Rdiv_lt_0_compat; lra).
      destruct (pow_lt_1_zero (damping s)
                  ltac:(rewrite Rabs_pos_eq; lra) _ Hq) as [K HK].
      exists K. intros k sk frames Hk Hr v Hin.
      rewrite (exact_run_velocities k s sk frames HA Hws Hr) in Hin.
      apply in_map_iff in Hin as ([x y] & <- & Hin).
      destruct (Hb _ Hin) as [Hx Hy]; simpl in Hx, Hy.
      specialize (HK k Hk).
      unfold scale; simpl. rewrite !Rabs_mult.
      assert (Hlt : (M + 1) * Rabs (damping s ^ k) < eps).
      { apply Rmult_lt_reg_r with (/ (M + 1)); [apply Rinv_0_lt_compat; lra|].
        replace ((M + 1) * Rabs (damping s ^ k) * / (M + 1))
          with (Rabs (damping s ^ k)) by (field; lra).
        exact HK. }
      pose proof (Rabs_pos (damping s ^ k)).
      pose proof (Rabs_pos x). pose proof (Rabs_pos y).
      split; nra.
Qed.

End Damping.

Lemma damping_without_force_witness :
  force_amplitude Demo.unforced = 0%R /\
  well_shaped Demo.unforced /\
  (0 < damping Demo.unforced < 1)%R /\
  (exists sk frames,
     run 3 Demo.unforced = Ok (sk, frames) /\
     velocities sk
     = map (scale (damping Demo.unforced ^ 3)%R) (velocities Demo.unforced)) /\
  (exists K, forall k sk frames, (K <= k)%nat ->
     run k Demo.unforced = Ok (sk, frames) ->
     forall v, In v (velocities sk) ->
       (Rabs (fst v) < 1 / 1000 /\ Rabs (snd v) < 1 / 1000)%R).
Proof.
  assert (HA : force_amplitude Demo.unforced = 0%R) by reflexivity.
  assert (Hws : well_shaped Demo.unforced) by reflexivity.
  assert (Hd : (0 < damping Demo.unforced < 1)%R) by (simpl; lra).
  destruct (damping_without_force Demo.unforced HA Hws) as (_ & Hrun & Hlim).
  destruct (Hlim Hd) as [_ Hzero].
  repeat split; try assumption; try apply Hd.
  - exact (Hrun 3%nat).
  - apply Hzero. lra.
Defined.

Section Origin.

Local Open Scope R_scope.

Lemma exact_radius_origin : radius (AF := exact) 0 0 = 1 / 1000000000.
Proof.
  unfold radius; simpl.
  replace (0 * 0 + 0 * 0) with 0 by ring. rewrite sqrt_0.
  unfold Exact.eqb. destruct (Req_dec_T 0 (Q2R 0)) as [_|Hne].
  - unfold Q2R; simpl; lra.
  - exfalso; apply Hne. unfold Q2R; simpl; lra.
Qed.

Lemma exact_force_origin (s : HarmonicExplorer R) (pr pt : R) :
  force s pr pt (0, 0) = (0, 0).
Proof.
  unfold force. rewrite exact_radius_origin. simpl.
  f_equal; unfold Rdiv; ring.
Qed.

Lemma exact_origin_step (s : HarmonicExplorer R) (pr pt : R) (i : nat) :
  nth_error (positions s) i = Some (0, 0) ->
  nth_error (velocities s) i = Some (0, 0) ->
  nth_error (positions (next s pr pt)) i = Some (0, 0) /\
  nth_error (velocities (next s pr pt)) i = Some (0, 0).
Proof.
  intros Hp Hv.
  destruct (next_row s pr pt i _ _ Hp Hv) as [Hv' Hp'].
  rewrite Hp', Hv', exact_force_origin.
  unfold drift, kick; simpl. split; do 2 f_equal; ring.
Qed.

(** In exact arithmetic, at the origin the radius is replaced by [1e-9], both direction
    vectors come out as [(0, 0)], and so does the force, at any time and in
    any configuration; a particle at rest at the origin is still there, at
    rest, after any number of [update] calls. *)
Theorem origin_is_fixed (s : HarmonicExplorer R) (i : nat) :
  well_shaped s ->
  nth_error (positions s) i = Some (0, 0) ->
  nth_error (velocities s) i = Some (0, 0) ->
  radius 0 0 = 1 / 1000000000 /\
  (0 / radius 0 0, 0 / radius 0 0) = (0, 0) /\
  (- 0 / radius 0 0, 0 / radius 0 0) = (0, 0) /\
  (forall (a : HarmonicExplorer R) pr pt, force a pr pt (0, 0) = (0, 0)) /\
  (forall k, exists sk frames,
     run k s = Ok (sk, frames) /\
     nth_error (positions sk) i = Some (0, 0) /\
     nth_error (velocities sk) i = Some (0, 0)).
Proof.
  intros Hws Hp Hv.
  split; [exact exact_radius_origin|].
  rewrite exact_radius_origin.
  split; [f_equal; lra|]. split; [f_equal; lra|].
  split; [exact exact_force_origin|].
  intros k. destruct (exact_run_total k s Hws) as (sk & frames & Hr).
  exists sk, frames. split; [exact Hr|].
  eapply run_invariant
    with (P := fun a => nth_error (positions a) i = Some (0, 0) /\
                        nth_error (velocities a) i = Some (0, 0));
    [|split; [exact Hp|exact Hv]|exact Hr].
  intros a a' out [Hpa Hva] Hu.
  destruct (update_ok_inv _ _ _ Hu) as (pr & pt & _ & _ & _ & -> & _).
  now apply exact_origin_step.
Qed.

End Origin.

Lemma origin_is_fixed_witness :
  well_shaped Demo.at_origin /\
  nth_error (positions Demo.at_origin) 0 = Some (0, 0)%R /\
  nth_error (velocities Demo.at_origin) 0 = Some (0, 0)%R /\
  force Demo.at_origin 8%R 8%R (0, 0)%R = (0, 0)%R /\
  exists sk frames,
    run 4 Demo.at_origin = Ok (sk, frames) /\
    nth_error (positions sk) 0 = Some (0, 0)%R /\
    nth_error (velocities sk) 0 = Some (0, 0)%R.
Proof.
  assert (Hws : well_shaped Demo.at_origin) by reflexivity.
  assert (Hp : nth_error (positions Demo.at_origin) 0 = Some (0, 0)%R)
    by reflexivity.
  assert (Hv : nth_error (velocities Demo.at_origin) 0 = Some (0, 0)%R)
    by reflexivity.
  destruct (origin_is_fixed Demo.at_origin 0 Hws Hp Hv)
    as (_ & _ & _ & Hforce & Hrun).
  repeat split; try assumption.
  - apply Hforce.
  - exact (Hrun 4%nat).
Defined.

(** * IEEE 754 facts about zeros *)

Module IEEE.

Local Open Scope float_scope.

Lemma Prim2SF_nan : Prim2SF nan = S754_nan.
Proof. reflexivity. Qed.

Lemma SFcompare_refl (x : spec_float) : x <> S754_nan -> SFcompare x x = Some Eq.
Proof.
  destruct x as [s|s| |s m e]; simpl; intros H; try congruence.
  - destruct s; reflexivity.
  - rewrite Z.compare_refl, Pos.compare_cont_refl. destruct s; reflexivity.
Qed.

Lemma is_zero_spec (x : float) : is_zero x = sf_zero (Prim2SF x).
Proof.
  unfold is_zero. rewrite eqb_spec. change (Prim2SF zero) with (S754_zero false).
  destruct (Prim2SF x) as [s|s| |s m e]; try reflexivity; destruct s; reflexivity.
Qed.

Lemma is_finite_spec (x : float) : is_finite x = sf_finite (Prim2SF x).
Proof.
  unfold is_finite, is_nan, is_infinity. rewrite !eqb_spec, abs_spec.
  change (Prim2SF infinity) with (S754_infinity false).
  unfold SFeqb at 1.
  destruct (Prim2SF x) as [s|s| |s m e] eqn:E; try reflexivity.
  all: rewrite ?SFcompare_refl by discriminate; reflexivity.
Qed.

Lemma is_zero_finite (a : float) : is_zero a = true -> is_finite a = true.
Proof. rewrite is_zero_spec, is_finite_spec. now destruct (Prim2SF a). Qed.

(** Zero times a finite number is a zero; times anything else it is NaN. *)
Lemma mul_zero_l (a b : float) :
  is_zero a = true -> is_finite b = true -> is_zero (a * b) = true.
Proof.
  rewrite !is_zero_spec, is_finite_spec, mul_spec. unfold SF64mul.
  destruct (Prim2SF a), (Prim2SF b); simpl; congruence.
Qed.




Lemma mul_nan_l (b : float) : nan * b = nan.
Proof. apply Prim2SF_inj. rewrite mul_spec, Prim2SF_nan. reflexivity. Qed.

(** Zero over a finite number other than zero is a zero. *)
Lemma div_zero_l (a r : float) :
  is_zero a = true -> is_finite r = true -> is_zero r = false ->
  is_zero (a / r) = true.
Proof.
  rewrite !is_zero_spec, is_finite_spec, div_spec. unfold SF64div.
  destruct (Prim2SF a), (Prim2SF r); simpl; congruence.
Qed.

Lemma opp_zero (a : float) : is_zero (- a) = is_zero a.
Proof. rewrite !is_zero_spec, opp_spec. now destruct (Prim2SF a). Qed.

Lemma sqrt_zero (a : float) :
  is_zero a = true -> is_zero (PrimFloat.sqrt a) = true.
Proof.
  rewrite !is_zero_spec, sqrt_spec. unfold SF64sqrt.
  destruct (Prim2SF a); simpl; congruence.
Qed.

Lemma add_zero_zero (a b : float) :
  is_zero a = true -> is_zero b = true -> is_zero (a + b) = true.
Proof.
  rewrite !is_zero_spec, add_spec. unfold SF64add.
  destruct (Prim2SF a) as [[|]| | |], (Prim2SF b) as [[|]| | |]; simpl; congruence.
Qed.



Lemma add_nan_r (a : float) : a + nan = nan.
Proof.
  apply Prim2SF_inj. rewrite add_spec, Prim2SF_nan. unfold SF64add.
  destruct (Prim2SF a) as [[|]|[|]| |]; reflexivity.
Qed.


End IEEE.

(** * The origin, in binary64 *)

Section Origin_binary64.

Variable lm : Libm.
Local Open Scope float_scope.

Ltac b64_ops :=
  cbn [fadd fmul fdiv fneg feqb fsqrt fsin fcos farctan2 of_int lit pi binary64] in *.

Lemma b64_sentinel :
  is_finite (B64.b64_lit (1 # 1000000000)) = true /\
  is_zero (B64.b64_lit (1 # 1000000000)) = false.
Proof. vm_compute. split; reflexivity. Qed.

Lemma b64_lit_zero : B64.b64_lit 0 = 0.
Proof. reflexivity. Qed.

(** At a position made of zeros of either sign the radius is the sentinel. *)
Lemma b64_radius_origin (x y : float) :
  is_zero x = true -> is_zero y = true ->
  radius (AF := binary64 lm) x y = B64.b64_lit (1 # 1000000000).
Proof.
  intros Hx Hy. unfold radius. b64_ops. rewrite b64_lit_zero.
  change (PrimFloat.sqrt (x * x + y * y) =? 0)
    with (is_zero (PrimFloat.sqrt (x * x + y * y))).
  rewrite IEEE.sqrt_zero; [reflexivity|].
  apply IEEE.add_zero_zero; apply IEEE.mul_zero_l;
    auto using IEEE.is_zero_finite.
Qed.

(** There, finite magnitudes compose to a force made of zeros. *)
Lemma b64_force_origin (s : HarmonicExplorer float) (pr pt x y : float) :
  is_zero x = true -> is_zero y = true ->
  is_finite (F_radial_mag (AF := binary64 lm) s pr pt (B64.b64_arctan2 lm y x)) = true ->
  is_finite (F_tangential_mag (AF := binary64 lm) s pt) = true ->
  is_zero (fst (force (AF := binary64 lm) s pr pt (x, y))) = true /\
  is_zero (snd (force (AF := binary64 lm) s pr pt (x, y))) = true.
Proof.
  intros Hx Hy Hr Ht. unfold force.
  rewrite (b64_radius_origin x y Hx Hy). b64_ops.
  destruct b64_sentinel as [Hfin Hnz].
  assert (Hxr : is_zero (x / B64.b64_lit (1 # 1000000000)) = true)
    by now apply IEEE.div_zero_l.
  assert (Hyr : is_zero (y / B64.b64_lit (1 # 1000000000)) = true)
    by now apply IEEE.div_zero_l.
  assert (Hny : is_zero (- y / B64.b64_lit (1 # 1000000000)) = true)
    by (apply IEEE.div_zero_l; [rewrite IEEE.opp_zero| |]; assumption).
  cbn [fst snd].
  split; apply IEEE.add_zero_zero; apply IEEE.mul_zero_l; assumption.
Qed.

(** A particle at rest on zeros stays at rest on zeros for one frame, when
    the magnitudes, the damping factor and the time step are finite. *)
Lemma b64_origin_rest_step (s : HarmonicExplorer float) (pr pt : float) (i : nat)
  (x y vx vy : float) :
  nth_error (positions s) i = Some (x, y) ->
  nth_error (velocities s) i = Some (vx, vy) ->
  is_zero x = true -> is_zero y = true ->
  is_zero vx = true -> is_zero vy = true ->
  is_finite (damping s) = true -> is_finite (dt s) = true ->
  is_finite (F_radial_mag (AF := binary64 lm) s pr pt (B64.b64_arctan2 lm y x)) = true ->
  is_finite (F_tangential_mag (AF := binary64 lm) s pt) = true ->
  exists x' y' vx' vy',
    nth_error (positions (next (AF := binary64 lm) s pr pt)) i = Some (x', y') /\
    nth_error (velocities (next (AF := binary64 lm) s pr pt)) i = Some (vx', vy') /\
    is_zero x' = true /\ is_zero y' = true /\
    is_zero vx' = true /\ is_zero vy' = true.
Proof.
  intros Hp Hv Hx Hy Hvx Hvy Hd Hdt Hr Ht.
  destruct (next_row (AF := binary64 lm) s pr pt i _ _ Hp Hv) as [Hv' Hp'].
  destruct (b64_force_origin s pr pt x y Hx Hy Hr Ht) as [Hfx Hfy].
  eexists _, _, _, _. split; [exact Hp'|]. split; [exact Hv'|].
  unfold kick. b64_ops. cbn [fst snd].
  assert (Hkx : is_zero (vx * damping s
                         + fst (force (AF := binary64 lm) s pr pt (x, y)) * dt s) = true)
    by (apply IEEE.add_zero_zero; apply IEEE.mul_zero_l; assumption).
  assert (Hky : is_zero (vy * damping s
                         + snd (force (AF := binary64 lm) s pr pt (x, y)) * dt s) = true)
    by (apply IEEE.add_zero_zero; apply IEEE.mul_zero_l; assumption).
  repeat split; try assumption;
    apply IEEE.add_zero_zero; try assumption; apply IEEE.mul_zero_l; assumption.
Qed.

Lemma b64_rest_run (k : nat) (s : HarmonicExplorer float) (i : nat) :
  is_finite (damping s) = true -> is_finite (dt s) = true ->
  rests s i = true ->
  finite_field_run lm k s i = true ->
  exists sk frames,
    run (AF := binary64 lm) k s = Ok (sk, frames) /\ rests sk i = true.
Proof.
  revert s; induction k as [|k IH]; intros s Hd Hdt Hrest Hff.
  - now exists s, [].
  - simpl in Hff. apply andb_true_iff in Hff as [Hf Hrun].
    destruct (update (AF := binary64 lm) s) as [[s1 out]|e] eqn:Hu; [|discriminate].
    pose proof (update_clock (AF := binary64 lm) _ _ _ Hu)
      as (_ & Hdt1 & Hd1 & _).
    destruct (update_ok_inv (AF := binary64 lm) _ _ _ Hu)
      as (pr & pt & Hpr & Hpt & _ & Hs1 & _).
    b64_ops.
    assert (Hrest1 : rests s1 i = true).
    { unfold rests, finite_field in *. rewrite Hpr, Hpt in Hf.
      destruct (nth_error (positions s) i) as [[x y]|] eqn:Hp; [|discriminate].
      destruct (nth_error (velocities s) i) as [[vx vy]|] eqn:Hv; [|discriminate].
      apply andb_true_iff in Hf as [Hfr Hft].
      apply andb_true_iff in Hrest as [Hrest Hvy].
      apply andb_true_iff in Hrest as [Hrest Hvx].
      apply andb_true_iff in Hrest as [Hx Hy].
      destruct (b64_origin_rest_step s pr pt i x y vx vy Hp Hv Hx Hy Hvx Hvy
                  Hd Hdt Hfr Hft)
        as (x' & y' & vx' & vy' & Hp' & Hv' & Hx' & Hy' & Hvx' & Hvy').
      rewrite Hs1, Hp', Hv', Hx', Hy', Hvx', Hvy'. reflexivity. }
    destruct (IH s1) as (sk & frames & Hr & Hk); try congruence.
    exists sk, (out :: frames). simpl. rewrite Hu, Hr. now split.
Qed.

(** X17.  In binary64 a particle at rest on zeros of either sign stays at
    rest on zeros over any number of frames along which the two force
    magnitudes are finite, [update] returning every time. *)
Lemma b64_origin_rest_run (k : nat) (s : HarmonicExplorer float) (i : nat) :
  is_finite (damping s) = true -> is_finite (dt s) = true ->
  rests s i = true ->
  finite_field_run lm k s i = true ->
  exists sk frames,
    run (AF := binary64 lm) k s = Ok (sk, frames) /\ rests sk i = true.
Proof. exact (b64_rest_run k s i). Qed.



End Origin_binary64.


Example b64_origin_rest_run_demo :
  exists sk frames,
    run (AF := Demo.arith) 50 Demo.resting = Ok (sk, frames) /\
    rests sk 0 = true.
Proof.
  apply b64_origin_rest_run; vm_compute; reflexivity.
Defined.


(** * The clock, in binary64 *)

Section Clock_binary64.

Local Open Scope float_scope.

Lemma clock_near_iter (k j : nat) (i : Z) (x : float) :
  B64.clock_near k i x = true -> (j <= k)%nat ->
  B64.near (Nat.iter j (fun y => y + B64.b64_lit (1 # 100)) x)
           ((i + Z.of_nat j) # 100) = true.
Proof.
  revert j i x; induction k as [|k IH]; intros j i x H Hj.
  - assert (j = 0)%nat as -> by lia. simpl in *. now rewrite Z.add_0_r.
  - simpl in H. apply andb_true_iff in H as [H0 H1].
    destruct j as [|j].
    + simpl. now rewrite Z.add_0_r.
    + specialize (IH j (i + 1)%Z _ H1 ltac:(lia)).
      replace (i + Z.of_nat (S j))%Z with (i + 1 + Z.of_nat j)%Z by lia.
      now rewrite Nat.iter_succ_r.
Qed.

(** X16.  Over the 600 frames of the reference animation the float64 clock
    stays within [1e-9] of [k * 0.01], whatever the configuration and the
    elementary functions are. *)
Lemma b64_clock_reference_run (lm : Libm) (p1 p2 n : Z) (d : float)
  (rng : nat -> float) (s0 sk : HarmonicExplorer float) (k : nat)
  (frames : list (list (vec float))) :
  __init__ (AF := binary64 lm) p1 p2 n d rng = Ok s0 ->
  run (AF := binary64 lm) k s0 = Ok (sk, frames) ->
  (k <= 600)%nat ->
  B64.near (t sk) (Z.of_nat k # 100) = true.
Proof.
  intros Hi Hr Hk.
  destruct (init_inv (AF := binary64 lm) _ _ _ _ _ _ Hi) as (Hdt & Ht & _).
  destruct (run_clock_iter (AF := binary64 lm) _ _ _ _ Hr) as [_ ->].
  rewrite Hdt, Ht.
  apply (clock_near_iter 600 k 0); [vm_compute; reflexivity|assumption].
Qed.

End Clock_binary64.

(** * Further properties of sequences of frames *)

Section Frames_more.

Context {F : Type} {AF : Arith F}.
Local Open Scope arith_scope.

Lemma next_lengths (s : HarmonicExplorer F) (pr pt : F) :
  well_shaped s ->
  length (positions (next s pr pt)) = length (positions s) /\
  length (velocities (next s pr pt)) = length (velocities s).
Proof.
  unfold well_shaped; intros H; simpl.
  assert (Hk : length (zip_with (kick s) (velocities s)
                         (map (force s pr pt) (positions s))) = length (velocities s))
    by (apply zip_with_length; rewrite length_map; congruence).
  split; [|exact Hk].
  rewrite zip_with_length; congruence.
Qed.

Lemma update_lengths (s s' : HarmonicExplorer F) (out : list (vec F)) :
  update s = Ok (s', out) ->
  out = positions s' /\
  length (positions s') = length (positions s) /\
  length (velocities s') = length (velocities s).
Proof.
  intros H.
  destruct (update_ok_inv _ _ _ H) as (pr & pt & _ & _ & Hws & -> & ->).
  split; [reflexivity|]. now apply next_lengths.
Qed.

(** A frame that returns leaves an object on which the next frame returns. *)
Lemma update_again (s s' : HarmonicExplorer F) (out : list (vec F)) :
  update s = Ok (s', out) -> is_ok (update s') = true.
Proof.
  intros H. apply update_is_ok.
  destruct (update_clock _ _ _ H) as (_ & _ & _ & _ & _ & Hpr & Hpt & _ & Hws).
  destruct (update_ok_inv _ _ _ H) as (pr & pt & Hr & Ht & _).
  rewrite Hpr, Hpt, Hr, Ht. repeat split; try discriminate. exact Hws.
Qed.

Lemma run_is_ok (k : nat) (s : HarmonicExplorer F) :
  is_ok (update s) = true -> is_ok (run k s) = true.
Proof.
  revert s; induction k as [|k IH]; intros s H; [reflexivity|].
  simpl. destruct (update s) as [[s1 out]|e] eqn:Hu; [|discriminate].
  specialize (IH s1 (update_again _ _ _ Hu)).
  destruct (run k s1) as [[s2 frames]|e]; [reflexivity|discriminate].
Qed.

Lemma last_cons {A : Type} (a d : A) (l : list A) : last (a :: l) d = last l a.
Proof.
  revert a d; induction l as [|b l IH]; intros a d; [reflexivity|].
  change (last (a :: b :: l) d) with (last (b :: l) d).
  rewrite (IH b d), (IH b a). reflexivity.
Qed.

(** X1.  Only the first call of [update] can raise.  When the first call
    returns, so does any number of calls in a row; when it raises, it raises
    OverflowError exactly when one of the two ratios has no float value, and
    ValueError exactly when both have one and the two arrays differ in their
    number of rows. *)
Theorem update_raises_at_first_call_or_never (k : nat) (s : HarmonicExplorer F) :
  match update s with
  | Ok _ => is_ok (run k s) = true
  | Raise e =>
      run (S k) s = Raise e /\
      (e = OverflowError <->
       of_int (p_radial s) = None \/ of_int (p_tangential s) = None) /\
      (e = ValueError <->
       of_int (p_radial s) <> None /\ of_int (p_tangential s) <> None /\
       ~ well_shaped s)
  end.
Proof.
  destruct (update s) as [[s1 out]|e] eqn:Hu.
  - apply run_is_ok. now rewrite Hu.
  - split; [simpl; now rewrite Hu|].
    revert Hu. unfold update, well_shaped.
    destruct (of_int (p_radial s)) as [pr|], (of_int (p_tangential s)) as [pt|];
      try (intros H; injection H as <-; split; split;
           [auto|reflexivity|discriminate|intros (H1 & H2 & _); congruence]).
    destruct (Nat.eqb_spec (length (velocities s)) (length (positions s))) as [E|E];
      [discriminate|].
    intros H; injection H as <-; split; split.
    + discriminate.
    + intros [H|H]; discriminate.
    + intros _. repeat split; try discriminate. congruence.
    + reflexivity.
Qed.

Lemma run_shape (k : nat) (s sk : HarmonicExplorer F)
  (frames : list (list (vec F))) :
  run k s = Ok (sk, frames) ->
  (p_radial sk, p_tangential sk, N sk) = (p_radial s, p_tangential s, N s) /\
  (damping sk, dt sk, base_freq sk, force_amplitude sk)
  = (damping s, dt s, base_freq s, force_amplitude s) /\
  length (positions sk) = length (positions s) /\
  length (velocities sk) = length (velocities s) /\
  length frames = k /\
  Forall (fun f => length f = length (positions s)) frames /\
  last frames (positions s) = positions sk.
Proof.
  revert s frames; induction k as [|k IH]; intros s frames H.
  - simpl in H. injection H as <- <-. repeat split; constructor.
  - apply run_succ_inv in H as (s1 & out & rest & Hu & Hr & ->).
    destruct (update_clock _ _ _ Hu)
      as (_ & Hdt & Hd & Hb & Ha & Hpr & Hpt & HN & _).
    destruct (update_lengths _ _ _ Hu) as (-> & Hlp & Hlv).
    destruct (IH _ _ Hr) as (E1 & E2 & Lp & Lv & Lf & Hall & Hlast).
    rewrite Hpr, Hpt, HN in E1. rewrite Hd, Hdt, Hb, Ha in E2.
    rewrite Hlp in Lp, Hall. rewrite Hlv in Lv.
    repeat split; try assumption.
    + simpl. now rewrite Lf.
    + constructor; assumption.
    + rewrite last_cons. exact Hlast.
Qed.

(** X2.  Over any number of calls of [update] the seven configuration
    attributes keep their values and both arrays keep their number of rows;
    [k] calls hand back [k] arrays of that many rows, the last of which is
    the position array of the object. *)
Theorem run_keeps_configuration_and_shape (k : nat) (s sk : HarmonicExplorer F)
  (frames : list (list (vec F))) :
  run k s = Ok (sk, frames) ->
  (p_radial sk, p_tangential sk, N sk) = (p_radial s, p_tangential s, N s) /\
  (damping sk, dt sk, base_freq sk, force_amplitude sk)
  = (damping s, dt s, base_freq s, force_amplitude s) /\
  length (positions sk) = length (positions s) /\
  length (velocities sk) = length (velocities s) /\
  length frames = k /\
  Forall (fun f => length f = length (positions s)) frames /\
  last frames (positions s) = positions sk.
Proof. exact (run_shape k s sk frames). Qed.

Lemma same_setting_step (a b : HarmonicExplorer F) (pr pt pr' pt' : F) (p v : vec F) :
  same_setting a b ->
  of_int (p_radial a) = Some pr -> of_int (p_tangential a) = Some pt ->
  of_int (p_radial b) = Some pr' -> of_int (p_tangential b) = Some pt' ->
  kick a v (force a pr pt p) = kick b v (force b pr' pt' p) /\
  drift a p (kick a v (force a pr pt p)) = drift b p (kick b v (force b pr' pt' p)).
Proof.
  intros (Epr & Ept & Ed & Edt & Eb & Ea & Et) Hpr Hpt Hpr' Hpt'.
  rewrite Epr in Hpr. rewrite Ept in Hpt.
  assert (pr = pr') as <- by congruence.
  assert (pt = pt') as <- by congruence.
  assert (Hf : force a pr pt p = force b pr pt p).
  { destruct p as [x y].
    unfold force, F_radial_mag, F_tangential_mag, phase.
    now rewrite Eb, Ea, Et. }
  rewrite Hf. unfold drift, kick. now rewrite Ed, Edt.
Qed.

(** X3.  Particles do not interact.  In two objects with the same
    configuration and clock, a particle with the same position and velocity
    comes out of [update] with the same position and velocity, whatever the
    other particles are and wherever it sits in the arrays. *)
Theorem update_row_independent (a b a' b' : HarmonicExplorer F)
  (oa ob : list (vec F)) (i j : nat) :
  same_setting a b ->
  update a = Ok (a', oa) -> update b = Ok (b', ob) ->
  nth_error (positions a) i = nth_error (positions b) j ->
  nth_error (velocities a) i = nth_error (velocities b) j ->
  nth_error oa i = nth_error ob j /\
  nth_error (velocities a') i = nth_error (velocities b') j.
Proof.
  intros Hs Ha Hb Hp Hv.
  destruct (update_lengths _ _ _ Ha) as (Hoa & Lpa & Lva).
  destruct (update_lengths _ _ _ Hb) as (Hob & Lpb & Lvb).
  destruct (update_ok_inv _ _ _ Ha) as (pr & pt & Hpr & Hpt & Wa & Ea & _).
  destruct (update_ok_inv _ _ _ Hb) as (pr' & pt' & Hpr' & Hpt' & Wb & Eb & _).
  unfold well_shaped in Wa, Wb.
  destruct (nth_error (positions a) i) as [p|] eqn:Hpa.
  - destruct (nth_error_same_length _ _ _ _ Wa Hpa) as (v & Hva).
    rewrite Hva in Hv. symmetry in Hp, Hv.
    destruct (same_setting_step a b pr pt pr' pt' p v Hs Hpr Hpt Hpr' Hpt')
      as (Ek & Ed).
    destruct (next_row a pr pt i _ _ Hpa Hva) as (Hva' & Hpa').
    destruct (next_row b pr' pt' j _ _ Hp Hv) as (Hvb' & Hpb').
    subst oa ob a' b'. rewrite Hva', Hpa', Hvb', Hpb', Ed, Ek. now split.
  - symmetry in Hp.
    assert (Hi : (length (positions a) <= i)%nat) by now apply nth_error_None.
    assert (Hj : (length (positions b) <= j)%nat) by now apply nth_error_None.
    assert (N1 : nth_error oa i = None)
      by (apply nth_error_None; subst oa; lia).
    assert (N2 : nth_error ob j = None)
      by (apply nth_error_None; subst ob; lia).
    assert (N3 : nth_error (velocities a') i = None)
      by (apply nth_error_None; lia).
    assert (N4 : nth_error (velocities b') j = None)
      by (apply nth_error_None; lia).
    rewrite N1, N2, N3, N4. now split.
Qed.

(** [j + k] calls of [update] are [j] calls followed by [k] calls, with
    the same arrays handed back and the same exception if there is one. *)
Lemma run_compose (j k : nat) (s : HarmonicExplorer F) :
  run (j + k) s
  = match run j s with
    | Ok (sj, fj) =>
        match run k sj with
        | Ok (sk, fk) => Ok (sk, fj ++ fk)
        | Raise e => Raise e
        end
    | Raise e => Raise e
    end.
Proof.
  revert s; induction j as [|j IH]; intros s.
  - simpl. destruct (run k s) as [[sk fk]|e]; reflexivity.
  - simpl. destruct (update s) as [[s1 out]|e]; [|reflexivity].
    rewrite IH.
    destruct (run j s1) as [[sj fj]|e]; [|reflexivity].
    destruct (run k sj) as [[sk fk]|e]; reflexivity.
Qed.

Lemma rand_ext (rng1 rng2 : nat -> F) (start n : nat) :
  (forall i, (start <= i < start + n)%nat -> rng1 i = rng2 i) ->
  rand rng1 start n = rand rng2 start n.
Proof.
  intros H. unfold rand. apply map_ext_in.
  intros i Hi. apply in_seq in Hi. now apply H.
Qed.

(** X4.  [__init__] draws [2 * num_particles] numbers and no more: two
    random sources that agree on their first [2 * num_particles] outcomes
    give the same object. *)
Theorem init_reads_two_draws_per_particle (p1 p2 n : Z) (d : F)
  (rng1 rng2 : nat -> F) :
  (forall i, (i < 2 * Z.to_nat n)%nat -> rng1 i = rng2 i) ->
  __init__ p1 p2 n d rng1 = __init__ p1 p2 n d rng2.
Proof.
  intros H. unfold __init__, _initialize_particles. cbn [N].
  destruct (n <? 0)%Z; [reflexivity|].
  rewrite (rand_ext rng1 rng2 0 (Z.to_nat n)) by (intros i Hi; apply H; lia).
  rewrite (rand_ext rng1 rng2 (Z.to_nat n) (Z.to_nat n))
    by (intros i Hi; apply H; lia).
  reflexivity.
Qed.

End Frames_more.

Lemma run_keeps_configuration_and_shape_witness :
  exists sk frames,
    run (AF := Demo.arith) 3 Demo.scenario = Ok (sk, frames) /\
    N sk = 1%Z /\ length frames = 3%nat /\ length (positions sk) = 1%nat.
Proof.
  destruct (run (AF := Demo.arith) 3 Demo.scenario) as [[sk frames]|e] eqn:H;
    [|vm_compute in H; discriminate H].
  exists sk, frames.
  destruct (run_keeps_configuration_and_shape (AF := Demo.arith) 3 Demo.scenario
              sk frames H) as (E1 & _ & Lp & _ & Lf & _).
  injection E1 as _ _ HN.
  exact (conj eq_refl (conj HN (conj Lf Lp))).
Defined.

Lemma update_row_independent_witness :
  exists a' b' oa ob,
    update (AF := Demo.arith) Demo.passing_origin = Ok (a', oa) /\
    update (AF := Demo.arith) Demo.shuffled = Ok (b', ob) /\
    nth_error oa 0 = nth_error ob 1 /\
    nth_error (velocities a') 0 = nth_error (velocities b') 1.
Proof.
  destruct (update (AF := Demo.arith) Demo.passing_origin) as [[a' oa]|e] eqn:Ha;
    [|vm_compute in Ha; discriminate Ha].
  destruct (update (AF := Demo.arith) Demo.shuffled) as [[b' ob]|e] eqn:Hb;
    [|vm_compute in Hb; discriminate Hb].
  exists a', b', oa, ob.
  assert (Hs : same_setting Demo.passing_origin Demo.shuffled)
    by (repeat split).
  destruct (update_row_independent (AF := Demo.arith) Demo.passing_origin
              Demo.shuffled a' b' oa ob 0 1 Hs Ha Hb eq_refl eq_refl) as (H1 & H2).
  exact (conj eq_refl (conj eq_refl (conj H1 H2))).
Defined.

Lemma init_reads_two_draws_per_particle_witness :
  __init__ (AF := Demo.arith) 8 8 2 (B64.b64_lit (98 # 100)) Demo.rng
  = __init__ (AF := Demo.arith) 8 8 2 (B64.b64_lit (98 # 100)) Demo.rng_then_zero.
Proof.
  apply (init_reads_two_draws_per_particle (AF := Demo.arith)).
  intros i Hi. unfold Demo.rng_then_zero.
  destruct (Nat.ltb_spec i 4) as [_|Hge]; [reflexivity|].
  change (2 * Z.to_nat 2)%nat with 4%nat in Hi. lia.
Defined.

(** * The animation callback, in every arithmetic *)

Section Animation_frames.

Context {F : Type} {AF : Arith F} {DF : Display F}.
Local Open Scope arith_scope.

Lemma max_abs_is_ok (pos : list (vec F)) :
  pos <> [] -> exists m, max_abs pos = Ok m.
Proof.
  destruct pos as [|[x y] pos]; [congruence|]. intros _.
  unfold max_abs. simpl. now eexists.
Qed.

Lemma animate_inv (s s' : HarmonicExplorer F) (f : Frame F) :
  animate s = Ok (s', f) -> update s = Ok (s', offsets f) /\ offsets f <> [].
Proof.
  unfold animate.
  destruct (update s) as [[s1 out]|e]; [|discriminate].
  destruct out as [|p out]; [discriminate|].
  destruct (max_abs (p :: out)) as [m|e]; [|discriminate].
  destruct (fpos (m * lit (12 # 10))); [destruct (ffinite (m * lit (12 # 10)))|];
    try discriminate;
    intros H; injection H as <- <-; (split; [reflexivity|discriminate]).
Qed.

Lemma animate_raises (s : HarmonicExplorer F) (e : exn) :
  update s = Raise e -> animate s = Raise e.
Proof. intros Hu. unfold animate. now rewrite Hu. Qed.

Lemma empty_run (k : nat) (s : HarmonicExplorer F) :
  of_int (p_radial s) <> None -> of_int (p_tangential s) <> None ->
  positions s = [] -> velocities s = [] ->
  exists sk,
    run k s = Ok (sk, repeat [] k) /\ positions sk = [] /\ velocities sk = [] /\
    t sk = Nat.iter k (fun x => x + dt s) (t s).
Proof.
  revert s; induction k as [|k IH]; intros s Hr Ht Hp Hv.
  - exists s. repeat split; assumption.
  - destruct (of_int (p_radial s)) as [pr|] eqn:Epr; [|congruence].
    destruct (of_int (p_tangential s)) as [pt|] eqn:Ept; [|congruence].
    assert (Hu : update s = Ok (next s pr pt, positions (next s pr pt))).
    { apply update_total; try assumption. unfold well_shaped. now rewrite Hp, Hv. }
    assert (Hp1 : positions (next s pr pt) = []) by (simpl; now rewrite Hp).
    assert (Hv1 : velocities (next s pr pt) = []) by (simpl; now rewrite Hv).
    destruct (IH (next s pr pt)) as (sk & Hrun & Hpk & Hvk & Htk); try assumption;
      try (simpl; congruence).
    exists sk. simpl run. rewrite Hu, Hrun, Hp1.
    repeat split; try assumption.
    rewrite Htk, Nat.iter_succ_r. reflexivity.
Qed.

(** X5.  Zero particles.  [__init__] with [num_particles = 0] builds an
    object with two empty arrays; on it [update] returns the empty array
    every time and changes nothing but the clock; [animate] raises
    ValueError, there being no maximum of an empty array. *)
Theorem empty_cloud_updates_but_cannot_be_drawn (p1 p2 : Z) (d : F)
  (rng : nat -> F) (k : nat) :
  of_int p1 <> None -> of_int p2 <> None ->
  exists s0 sk,
    __init__ p1 p2 0 d rng = Ok s0 /\
    positions s0 = [] /\ velocities s0 = [] /\
    run k s0 = Ok (sk, repeat [] k) /\
    positions sk = [] /\ velocities sk = [] /\
    t sk = Nat.iter k (fun x => x + lit (1 # 100)) (lit 0) /\
    animate s0 = Raise ValueError.
Proof.
  intros H1 H2.
  set (s0 := mkSim p1 p2 0 d (lit (1 # 100)) (lit (1 # 10)) (lit 1) (lit 0) [] []).
  destruct (empty_run k s0 H1 H2 eq_refl eq_refl) as (sk & Hrun & Hp & Hv & Ht).
  exists s0, sk. repeat split; try assumption; try reflexivity.
  unfold animate, update. cbn [p_radial p_tangential s0].
  destruct (of_int p1) as [pr|]; [|congruence].
  destruct (of_int p2) as [pt|]; [|congruence].
  reflexivity.
Qed.

(** X6.  The animation drives the simulator as plain calls of [update] do.
    [k] calls of [animate] that return leave the object [k] calls of
    [update] leave, and the arrays they hand to the plot are the arrays
    those calls return; when the calls of [update] raise, the calls of
    [animate] raise the same exception. *)
Theorem animation_follows_run (k : nat) (s : HarmonicExplorer F) :
  (forall sk fs,
     animation k s = Ok (sk, fs) -> run k s = Ok (sk, map offsets fs)) /\
  (forall e, run k s = Raise e -> animation k s = Raise e).
Proof.
  split.
  - revert s; induction k as [|k IH]; intros s sk fs H.
    + simpl in H. injection H as <- <-. reflexivity.
    + simpl in H.
      destruct (animate s) as [[s1 f]|e] eqn:Ha; [|discriminate].
      destruct (animation k s1) as [[s2 fs']|e] eqn:Hk; [|discriminate].
      injection H as <- <-.
      apply animate_inv in Ha as [Hu _].
      apply IH in Hk.
      simpl. now rewrite Hu, Hk.
  - intros e H. destruct k as [|k]; [discriminate|].
    simpl in H. simpl.
    destruct (update s) as [[s1 out]|e0] eqn:Hu.
    + pose proof (run_is_ok k s1 (update_again _ _ _ Hu)) as Hok.
      destruct (run k s1) as [[s2 rest]|e1]; discriminate.
    + injection H as <-. now rewrite (animate_raises s e0 Hu).
Qed.

End Animation_frames.

Lemma empty_cloud_updates_but_cannot_be_drawn_witness :
  exists s0 sk,
    __init__ (AF := Demo.arith) 8 8 0 (B64.b64_lit (98 # 100)) Demo.rng = Ok s0 /\
    run (AF := Demo.arith) 2 s0 = Ok (sk, [[]; []]) /\
    animate (AF := Demo.arith) s0 = Raise ValueError.
Proof.
  destruct (empty_cloud_updates_but_cannot_be_drawn (AF := Demo.arith)
              8 8 (B64.b64_lit (98 # 100)) Demo.rng 2)
    as (s0 & sk & Hi & _ & _ & Hr & _ & _ & _ & Ha);
    [vm_compute; discriminate|vm_compute; discriminate|].
  exists s0, sk. exact (conj Hi (conj Hr Ha)).
Defined.

Lemma animation_follows_run_witness :
  exists sk fs,
    animation (AF := Demo.arith) 3 Demo.scenario = Ok (sk, fs) /\
    run (AF := Demo.arith) 3 Demo.scenario = Ok (sk, map offsets fs).
Proof.
  destruct (animation (AF := Demo.arith) 3 Demo.scenario) as [[sk fs]|e] eqn:Ha;
    [|vm_compute in Ha; discriminate Ha].
  exists sk, fs. split; [reflexivity|].
  exact (proj1 (animation_follows_run (AF := Demo.arith) 3 Demo.scenario) sk fs Ha).
Defined.

(** * The force field, in exact arithmetic *)

Section Field.

Local Open Scope R_scope.

(** The radius [update] divides by: the sentinel at the origin, the distance
    to the origin elsewhere. *)
Lemma exact_radius_cases (x y : R) :
  (x = 0 /\ y = 0 /\ radius (AF := exact) x y = 1 / 1000000000) \/
  ((x <> 0 \/ y <> 0) /\ radius (AF := exact) x y = sqrt (x * x + y * y) /\
   0 < sqrt (x * x + y * y)).
Proof.
  assert (Hnn : 0 <= x * x + y * y) by nra.
  destruct (Req_dec x 0) as [Hx|Hx]; [destruct (Req_dec y 0) as [Hy|Hy]|].
  - left. subst. repeat split. apply exact_radius_origin.
  - right. assert (Hpos : 0 < sqrt (x * x + y * y)) by (apply sqrt_lt_R0; nra).
    split; [now right|]. split; [|assumption].
    unfold radius; simpl. unfold Exact.eqb.
    destruct (Req_dec_T (sqrt (x * x + y * y)) (Q2R 0)) as [E|_]; [|reflexivity].
    destruct exact_lit_values as (L0 & _). rewrite L0 in E. lra.
  - right. assert (Hpos : 0 < sqrt (x * x + y * y)) by (apply sqrt_lt_R0; nra).
    split; [now left|]. split; [|assumption].
    unfold radius; simpl. unfold Exact.eqb.
    destruct (Req_dec_T (sqrt (x * x + y * y)) (Q2R 0)) as [E|_]; [|reflexivity].
    destruct exact_lit_values as (L0 & _). rewrite L0 in E. lra.
Qed.

(** Away from the origin the two direction vectors have length one. *)
Lemma unit_direction (x y : R) :
  0 < sqrt (x * x + y * y) ->
  x / sqrt (x * x + y * y) * (x / sqrt (x * x + y * y))
  + y / sqrt (x * x + y * y) * (y / sqrt (x * x + y * y)) = 1.
Proof.
  intros Hpos.
  assert (Hsq : sqrt (x * x + y * y) * sqrt (x * x + y * y) = x * x + y * y)
    by (apply sqrt_sqrt; nra).
  set (r := sqrt (x * x + y * y)) in *. clearbody r.
  replace (x / r * (x / r) + y / r * (y / r)) with ((x * x + y * y) / (r * r))
    by (field; lra).
  rewrite <- Hsq. field. lra.
Qed.

Lemma magnitudes_bounded (s : HarmonicExplorer R) (pr pt theta : R) :
  F_radial_mag s pr pt theta * F_radial_mag s pr pt theta
  <= force_amplitude s * force_amplitude s /\
  F_tangential_mag s pt * F_tangential_mag s pt
  <= force_amplitude s * force_amplitude s.
Proof.
  unfold F_radial_mag, F_tangential_mag. cbn [fmul fsin fcos exact].
  set (A := force_amplitude s).
  pose proof (SIN_bound (phase s pr)) as [Hs1 Hs2].
  pose proof (COS_bound (pt * theta)) as [Hc1 Hc2].
  pose proof (COS_bound (phase s pt)) as [Hd1 Hd2].
  set (a := sin (phase s pr)) in *. set (b := cos (pt * theta)) in *.
  set (c := cos (phase s pt)) in *.
  assert (Ha : a * a <= 1) by nra.
  assert (Hb : b * b <= 1) by nra.
  assert (Hc : c * c <= 1) by nra.
  assert (HA : 0 <= A * A) by nra.
  assert (Hab : (a * b) * (a * b) <= 1).
  { replace (a * b * (a * b)) with ((a * a) * (b * b)) by ring.
    assert (0 <= a * a) by nra. assert (0 <= b * b) by nra. nra. }
  split.
  - replace (A * a * b * (A * a * b)) with ((A * A) * (a * b * (a * b))) by ring.
    pose proof (Rmult_le_compat_l (A * A) _ 1 HA Hab). lra.
  - replace (A * c * (A * c)) with ((A * A) * (c * c)) by ring.
    pose proof (Rmult_le_compat_l (A * A) _ 1 HA Hc). lra.
Qed.

(** X7.  Nothing is divided by zero.  In exact arithmetic the radius
    [update] divides by is positive at every position: the sentinel at the
    origin, the distance to the origin elsewhere.  In binary64 it is never a
    zero, whatever the coordinates are. *)
Theorem radius_is_never_zero :
  (forall x y : R,
     0 < radius (AF := exact) x y /\
     (x = 0 /\ y = 0 \/ radius (AF := exact) x y = sqrt (x * x + y * y))) /\
  (forall (lm : Libm) (x y : float),
     is_zero (radius (AF := binary64 lm) x y) = false).
Proof.
  split.
  - intros x y.
    destruct (exact_radius_cases x y) as [(Hx & Hy & ->)|(_ & -> & Hpos)].
    + split; [lra|now left].
    + split; [assumption|now right].
  - intros lm x y. unfold radius.
    cbn [fadd fmul feqb fsqrt lit binary64].
    change (B64.b64_lit 0) with 0%float.
    destruct (PrimFloat.eqb (PrimFloat.sqrt (x * x + y * y)%float) 0) eqn:E.
    + vm_compute. reflexivity.
    + exact E.
Qed.

Lemma force_shape (s : HarmonicExplorer R) (pr pt x y : R) :
  x <> 0 \/ y <> 0 ->
  let r := sqrt (x * x + y * y) in
  let f := force s pr pt (x, y) in
  let Fr := F_radial_mag s pr pt (Exact.arctan2 y x) in
  let Ft := F_tangential_mag s pt in
  fst f * (x / r) + snd f * (y / r) = Fr /\
  fst f * (- y / r) + snd f * (x / r) = Ft /\
  fst f * fst f + snd f * snd f = Fr * Fr + Ft * Ft.
Proof.
  intros Hne r f Fr Ft.
  destruct (exact_radius_cases x y) as [(Hx & Hy & _)|(_ & Hr & Hpos)];
    [destruct Hne; contradiction|].
  pose proof (unit_direction x y Hpos) as Hu.
  subst f. unfold force. rewrite Hr.
  cbn [fst snd fadd fmul fdiv fneg farctan2 exact].
  fold r in Hu |- *. fold Fr Ft.
  replace (- y / r) with (- (y / r)) by (unfold Rdiv; ring).
  set (u := x / r) in *. set (w := y / r) in *.
  repeat split.
  - replace ((u * Fr + - w * Ft) * u + (w * Fr + u * Ft) * w)
      with (Fr * (u * u + w * w)) by ring.
    rewrite Hu. ring.
  - replace ((u * Fr + - w * Ft) * - w + (w * Fr + u * Ft) * u)
      with (Ft * (u * u + w * w)) by ring.
    rewrite Hu. ring.
  - replace ((u * Fr + - w * Ft) * (u * Fr + - w * Ft)
             + (w * Fr + u * Ft) * (w * Fr + u * Ft))
      with ((Fr * Fr + Ft * Ft) * (u * u + w * w)) by ring.
    rewrite Hu. ring.
Qed.

(** X8.  Away from the origin the force is the vector with radial component
    [F_radial_mag] and tangential component [F_tangential_mag]: the two
    direction vectors are orthonormal, and the squared length of the force
    is the sum of the squares of the two magnitudes. *)
Theorem force_polar_components (s : HarmonicExplorer R) (pr pt x y : R) :
  x <> 0 \/ y <> 0 ->
  let r := sqrt (x * x + y * y) in
  let f := force s pr pt (x, y) in
  let Fr := F_radial_mag s pr pt (Exact.arctan2 y x) in
  let Ft := F_tangential_mag s pt in
  fst f * (x / r) + snd f * (y / r) = Fr /\
  fst f * (- y / r) + snd f * (x / r) = Ft /\
  fst f * fst f + snd f * snd f = Fr * Fr + Ft * Ft.
Proof. exact (force_shape s pr pt x y). Qed.

Lemma force_square_bound (s : HarmonicExplorer R) (pr pt : R) (p : vec R) :
  fst (force s pr pt p) * fst (force s pr pt p)
  + snd (force s pr pt p) * snd (force s pr pt p)
  <= 2 * (force_amplitude s * force_amplitude s).
Proof.
  destruct p as [x y].
  destruct (exact_radius_cases x y) as [(Hx & Hy & _)|(Hne & _ & _)].
  - subst. rewrite exact_force_origin. simpl.
    assert (0 <= force_amplitude s * force_amplitude s) by nra. lra.
  - destruct (force_shape s pr pt x y Hne) as (_ & _ & ->).
    destruct (magnitudes_bounded s pr pt (Exact.arctan2 y x)) as [H1 H2]. lra.
Qed.

(** X9.  The field is bounded by the amplitude alone: at every position, at
    every time and for every pair of ratios the squared length of the force
    is at most twice the squared amplitude. *)
Theorem force_is_bounded (s : HarmonicExplorer R) (pr pt : R) (p : vec R) :
  fst (force s pr pt p) * fst (force s pr pt p)
  + snd (force s pr pt p) * snd (force s pr pt p)
  <= 2 * (force_amplitude s * force_amplitude s).
Proof. exact (force_square_bound s pr pt p). Qed.

End Field.

Lemma force_polar_components_witness :
  ((1 <> 0 \/ 0 <> 0) /\
   fst (force Demo.at_origin 8 8 (1, 0)) * fst (force Demo.at_origin 8 8 (1, 0))
   + snd (force Demo.at_origin 8 8 (1, 0)) * snd (force Demo.at_origin 8 8 (1, 0))
   = F_radial_mag Demo.at_origin 8 8 (Exact.arctan2 0 1)
     * F_radial_mag Demo.at_origin 8 8 (Exact.arctan2 0 1)
     + F_tangential_mag Demo.at_origin 8 * F_tangential_mag Demo.at_origin 8)%R.
Proof.
  assert (Hne : (1 <> 0 \/ 0 <> 0)%R) by (left; exact R1_neq_R0).
  destruct (force_polar_components Demo.at_origin 8 8 1 0 Hne) as (_ & _ & H).
  exact (conj Hne H).
Defined.

(** * Bounds on the motion, in exact arithmetic *)

Section Bounds.

Local Open Scope R_scope.

Lemma square_bound_abs (a c : R) : 0 <= c -> a * a <= c * c -> Rabs a <= c.
Proof.
  intros Hc H.
  destruct (Rle_dec (Rabs a) c) as [Hle|Hgt]; [assumption|exfalso].
  apply Rnot_le_lt in Hgt.
  assert (Habs : Rabs a * Rabs a = a * a)
    by (unfold Rabs; destruct (Rcase_abs a); ring).
  assert (c * c < Rabs a * Rabs a) by nra.
  lra.
Qed.

Lemma force_component_bound (s : HarmonicExplorer R) (pr pt : R) (p : vec R) :
  Rabs (fst (force s pr pt p)) <= sqrt 2 * Rabs (force_amplitude s) /\
  Rabs (snd (force s pr pt p)) <= sqrt 2 * Rabs (force_amplitude s).
Proof.
  pose proof (force_square_bound s pr pt p) as H.
  set (fx := fst (force s pr pt p)) in *. set (fy := snd (force s pr pt p)) in *.
  set (A := force_amplitude s) in *. clearbody fx fy A.
  assert (H2 : sqrt 2 * sqrt 2 = 2) by (apply sqrt_sqrt; lra).
  assert (Hs : 0 <= sqrt 2) by apply sqrt_pos.
  assert (HA : Rabs A * Rabs A = A * A)
    by (unfold Rabs; destruct (Rcase_abs A); ring).
  assert (HA0 : 0 <= Rabs A) by apply Rabs_pos.
  assert (Hc : 0 <= sqrt 2 * Rabs A) by nra.
  assert (Hcc : sqrt 2 * Rabs A * (sqrt 2 * Rabs A) = 2 * (A * A)).
  { replace (sqrt 2 * Rabs A * (sqrt 2 * Rabs A))
      with ((sqrt 2 * sqrt 2) * (Rabs A * Rabs A)) by ring.
    rewrite H2, HA. reflexivity. }
  split; apply square_bound_abs; try assumption; rewrite Hcc; nra.
Qed.

(** One kick keeps a speed bound [B] that the damping can hold against the
    strongest force. *)
Lemma kick_bound (s : HarmonicExplorer R) (pr pt B : R) (p v : vec R) :
  0 <= damping s < 1 -> 0 <= dt s ->
  sqrt 2 * Rabs (force_amplitude s) * dt s <= (1 - damping s) * B ->
  Rabs (fst v) <= B /\ Rabs (snd v) <= B ->
  Rabs (fst (kick s v (force s pr pt p))) <= B /\
  Rabs (snd (kick s v (force s pr pt p))) <= B.
Proof.
  intros [Hd0 Hd1] Hdt HB [Hvx Hvy].
  destruct (force_component_bound s pr pt p) as [Hfx Hfy].
  unfold kick. cbn [fst snd fadd fmul exact].
  set (fx := fst (force s pr pt p)) in *. set (fy := snd (force s pr pt p)) in *.
  set (c := sqrt 2 * Rabs (force_amplitude s)) in *.
  set (d := damping s) in *. set (h := dt s) in *.
  clearbody fx fy c d h.
  assert (Hstep : forall a f, Rabs a <= B -> Rabs f <= c -> Rabs (a * d + f * h) <= B).
  { intros a f Ha Hf.
    apply Rle_trans with (Rabs (a * d) + Rabs (f * h)); [apply Rabs_triang|].
    rewrite !Rabs_mult, (Rabs_right d), (Rabs_right h) by lra.
    pose proof (Rabs_pos a). pose proof (Rabs_pos f).
    assert (Rabs a * d <= B * d) by (apply Rmult_le_compat_r; lra).
    assert (Rabs f * h <= c * h) by (apply Rmult_le_compat_r; lra).
    lra. }
  split; apply Hstep; assumption.
Qed.

Lemma exact_config_kept (s s' : HarmonicExplorer R) (out : list (vec R)) :
  update s = Ok (s', out) ->
  damping s' = damping s /\ dt s' = dt s /\
  force_amplitude s' = force_amplitude s /\ well_shaped s /\
  s' = next s (IZR (p_radial s)) (IZR (p_tangential s)).
Proof.
  intros Hu.
  destruct (update_clock _ _ _ Hu) as (_ & Hdt & Hd & _ & Ha & _).
  destruct (update_ok_inv _ _ _ Hu) as (pr & pt & Hpr & Hpt & Hws & Hs & _).
  cbn [of_int exact] in Hpr, Hpt.
  injection Hpr as <-. injection Hpt as <-.
  repeat split; assumption.
Qed.

Lemma speed_bound_run (k : nat) (s sk : HarmonicExplorer R)
  (frames : list (list (vec R))) (B : R) :
  0 <= damping s < 1 -> 0 <= dt s ->
  sqrt 2 * Rabs (force_amplitude s) * dt s <= (1 - damping s) * B ->
  Forall (fun v => Rabs (fst v) <= B /\ Rabs (snd v) <= B) (velocities s) ->
  run k s = Ok (sk, frames) ->
  Forall (fun v => Rabs (fst v) <= B /\ Rabs (snd v) <= B) (velocities sk) /\
  forall i p pk,
    nth_error (positions s) i = Some p -> nth_error (positions sk) i = Some pk ->
    Rabs (fst pk - fst p) <= INR k * (dt s * B) /\
    Rabs (snd pk - snd p) <= INR k * (dt s * B).
Proof.
  revert s frames; induction k as [|k IH]; intros s frames Hd Hdt HB Hv Hrun.
  - simpl in Hrun. injection Hrun as <- <-. split; [assumption|].
    intros i p pk Hp Hpk. rewrite Hp in Hpk. injection Hpk as <-.
    simpl. rewrite !Rminus_diag, Rabs_R0. lra.
  - apply run_succ_inv in Hrun as (s1 & out & rest & Hu & Hr & _).
    destruct (exact_config_kept _ _ _ Hu) as (Ed & Edt & Ea & Hws & Es1).
    set (pr := IZR (p_radial s)) in *. set (pt := IZR (p_tangential s)) in *.
    assert (Hrow : forall i v1, nth_error (velocities s1) i = Some v1 ->
              exists p v, nth_error (positions s) i = Some p /\
                          nth_error (velocities s) i = Some v /\
                          v1 = kick s v (force s pr pt p)).
    { intros i v1 H1.
      assert (Hi : (i < length (velocities s))%nat).
      { destruct (next_lengths s pr pt Hws) as [_ L]. rewrite <- L, <- Es1.
        apply nth_error_Some. congruence. }
      destruct (nth_error (velocities s) i) as [v|] eqn:Hvi;
        [|apply nth_error_None in Hvi; lia].
      destruct (nth_error (positions s) i) as [p|] eqn:Hpi;
        [|apply nth_error_None in Hpi; unfold well_shaped in Hws; lia].
      destruct (next_row s pr pt i _ _ Hpi Hvi) as [Hv' _].
      rewrite <- Es1, H1 in Hv'. injection Hv' as ->.
      now exists p, v. }
    assert (Hv1 : Forall (fun v => Rabs (fst v) <= B /\ Rabs (snd v) <= B)
                    (velocities s1)).
    { apply Forall_forall. intros v1 Hin.
      apply In_nth_error in Hin as (i & Hi).
      destruct (Hrow i v1 Hi) as (p & v & _ & Hvi & ->).
      apply kick_bound; try assumption.
      apply (proj1 (Forall_forall _ _) Hv). eapply nth_error_In; eassumption. }
    destruct (IH s1 rest) as (Hvk & Hpk); try assumption;
      try (rewrite ?Ed, ?Edt, ?Ea; assumption).
    split; [assumption|].
    intros i p pk Hp Hk.
    destruct (nth_error_same_length _ _ _ _ Hws Hp) as (v & Hvi).
    destruct (next_row s pr pt i _ _ Hp Hvi) as [Hv' Hp'].
    rewrite <- Es1 in Hv', Hp'.
    destruct (Hpk i _ pk Hp' Hk) as [Hx Hy].
    assert (Hb : Rabs (fst (kick s v (force s pr pt p))) <= B /\
                 Rabs (snd (kick s v (force s pr pt p))) <= B).
    { apply (proj1 (Forall_forall _ _) Hv1). eapply nth_error_In; eassumption. }
    destruct Hb as [Hbx Hby].
    rewrite Edt in Hx, Hy. rewrite S_INR.
    unfold drift in Hx, Hy. cbn [fst snd fadd fmul exact] in Hx, Hy.
    set (w := kick s v (force s pr pt p)) in *. clearbody w.
    assert (Hone : forall z q a b, Rabs a <= B ->
              Rabs (z - (q + a * dt s)) <= b -> Rabs (z - q) <= b + dt s * B).
    { intros z q a b Ha Hz.
      replace (z - q) with ((z - (q + a * dt s)) + a * dt s) by ring.
      apply Rle_trans with (Rabs (z - (q + a * dt s)) + Rabs (a * dt s));
        [apply Rabs_triang|].
      rewrite Rabs_mult, (Rabs_right (dt s)) by lra.
      assert (Rabs a * dt s <= B * dt s) by (apply Rmult_le_compat_r; lra).
      lra. }
    replace ((INR k + 1) * (dt s * B)) with (INR k * (dt s * B) + dt s * B) by ring.
    split; [apply (Hone _ _ (fst w))|apply (Hone _ _ (snd w))]; assumption.
Qed.

(** X10.  The damping bounds the speed.  With a damping factor in [[0, 1)]
    any bound [B] on the velocity components that is at least
    [sqrt 2 * |amplitude| * dt / (1 - damping)] is kept by every call of
    [update], and no coordinate moves by more than [dt * B] in a frame. *)
Theorem speed_stays_bounded (k : nat) (s sk : HarmonicExplorer R)
  (frames : list (list (vec R))) (B : R) :
  0 <= damping s < 1 -> 0 <= dt s ->
  sqrt 2 * Rabs (force_amplitude s) * dt s <= (1 - damping s) * B ->
  Forall (fun v => Rabs (fst v) <= B /\ Rabs (snd v) <= B) (velocities s) ->
  run k s = Ok (sk, frames) ->
  Forall (fun v => Rabs (fst v) <= B /\ Rabs (snd v) <= B) (velocities sk) /\
  forall i p pk,
    nth_error (positions s) i = Some p -> nth_error (positions sk) i = Some pk ->
    Rabs (fst pk - fst p) <= INR k * (dt s * B) /\
    Rabs (snd pk - snd p) <= INR k * (dt s * B).
Proof. exact (speed_bound_run k s sk frames B). Qed.

End Bounds.

(** * Symmetries of the force field, in exact arithmetic *)

Section Symmetry.

Local Open Scope R_scope.

Lemma sin_cos_period_Z (x : R) (z : Z) :
  sin (x + 2 * IZR z * PI) = sin x /\ cos (x + 2 * IZR z * PI) = cos x.
Proof.
  destruct z as [|p|p].
  - replace (x + 2 * 0 * PI) with x by ring. now split.
  - rewrite <- (positive_nat_Z p), <- INR_IZR_INZ.
    split; [apply sin_period|apply cos_period].
  - change (Z.neg p) with (- Z.pos p)%Z.
    rewrite opp_IZR, <- (positive_nat_Z p), <- INR_IZR_INZ.
    set (k := Pos.to_nat p). split.
    + rewrite <- (sin_period (x + 2 * - INR k * PI) k). f_equal; ring.
    + rewrite <- (cos_period (x + 2 * - INR k * PI) k). f_equal; ring.
Qed.

(** Shifting the clock by [m / base_freq] shifts the phase of an integer
    ratio by a multiple of [2 pi]. *)
Lemma phase_shift (a b : HarmonicExplorer R) (m z : Z) :
  base_freq a <> 0 -> base_freq b = base_freq a ->
  t b = t a + IZR m / base_freq a ->
  phase b (IZR z) = phase a (IZR z) + 2 * IZR (z * m) * PI.
Proof.
  intros Hf Eb Et. unfold phase. cbn [fmul lit pi exact].
  destruct exact_lit_values as (_ & _ & L2 & _).
  rewrite Eb, Et, L2, mult_IZR. field. exact Hf.
Qed.

(** X11.  The force field is periodic in time.  For integer ratios, moving
    the clock by a whole number of periods [1 / base_freq] leaves the force
    at every position as it was. *)
Theorem force_field_is_periodic (a b : HarmonicExplorer R) (m zr zt : Z)
  (p : vec R) :
  base_freq a <> 0 -> base_freq b = base_freq a ->
  force_amplitude b = force_amplitude a ->
  t b = t a + IZR m / base_freq a ->
  force b (IZR zr) (IZR zt) p = force a (IZR zr) (IZR zt) p.
Proof.
  intros Hf Eb Ea Et. destruct p as [x y].
  unfold force, F_radial_mag, F_tangential_mag.
  rewrite (phase_shift a b m zr Hf Eb Et), (phase_shift a b m zt Hf Eb Et), Ea.
  cbn [fsin fcos exact].
  rewrite (proj1 (sin_cos_period_Z _ _)), (proj2 (sin_cos_period_Z _ _)).
  reflexivity.
Qed.

Lemma arctan2_half_turn (x y : R) :
  x <> 0 \/ y <> 0 ->
  Exact.arctan2 (- y) (- x) = Exact.arctan2 y x + PI \/
  Exact.arctan2 (- y) (- x) = Exact.arctan2 y x - PI.
Proof.
  intros Hne. unfold Exact.arctan2.
  destruct (Rtotal_order x 0) as [Hx|[Hx|Hx]].
  - replace (- y / - x) with (y / x) by (field; lra).
    destruct (Rlt_dec 0 (- x)); [|lra].
    destruct (Rlt_dec 0 x); [lra|].
    destruct (Rlt_dec x 0); [|lra].
    destruct (Rle_dec 0 y); [right|left]; lra.
  - subst x. rewrite Ropp_0.
    destruct (Rlt_dec 0 0); [lra|].
    destruct (Rlt_dec 0 (- y)), (Rlt_dec (- y) 0), (Rlt_dec 0 y), (Rlt_dec y 0);
      try lra; first [left; lra|right; lra|destruct Hne; lra].
  - replace (- y / - x) with (y / x) by (field; lra).
    destruct (Rlt_dec 0 (- x)); [lra|].
    destruct (Rlt_dec (- x) 0); [|lra].
    destruct (Rlt_dec 0 x); [|lra].
    destruct (Rle_dec 0 (- y)); [left|right]; lra.
Qed.

(** With an even tangential ratio the force at [-p] is the opposite of the
    force at [p]. *)
Lemma force_half_turn (s : HarmonicExplorer R) (pr : R) (m : Z) (x y : R) :
  force s pr (IZR (2 * m)) (- x, - y)
  = (- fst (force s pr (IZR (2 * m)) (x, y)),
     - snd (force s pr (IZR (2 * m)) (x, y))).
Proof.
  destruct (exact_radius_cases x y) as [(Hx & Hy & _)|(Hne & Hr & Hpos)].
  - subst. rewrite Ropp_0, exact_force_origin. cbn [fst snd].
    now rewrite Ropp_0.
  - assert (Hr' : radius (AF := exact) (- x) (- y) = radius (AF := exact) x y).
    { destruct (exact_radius_cases (- x) (- y)) as [(Hx & Hy & _)|(_ & -> & _)].
      - destruct Hne; lra.
      - rewrite Hr. f_equal. ring. }
    assert (Hc : cos (IZR (2 * m) * Exact.arctan2 (- y) (- x))
                 = cos (IZR (2 * m) * Exact.arctan2 y x)).
    { rewrite mult_IZR.
      destruct (arctan2_half_turn x y Hne) as [-> | ->].
      - rewrite <- (proj2 (sin_cos_period_Z (2 * IZR m * Exact.arctan2 y x) m)).
        f_equal. ring.
      - rewrite <- (proj2 (sin_cos_period_Z (2 * IZR m * Exact.arctan2 y x) (- m))).
        rewrite opp_IZR. f_equal. ring. }
    unfold force, F_radial_mag. rewrite Hr'.
    cbn [fst snd fadd fmul fdiv fneg fcos farctan2 exact].
    rewrite Hc. unfold Rdiv. f_equal; ring.
Qed.

(** X12.  With an even tangential ratio the motion commutes with the
    half-turn about the origin: a particle at [-p] with velocity [-v] comes
    out of [update] where the particle at [p] with velocity [v] does, under
    the same half-turn. *)
Theorem half_turn_symmetry (a b a' b' : HarmonicExplorer R)
  (oa ob : list (vec R)) (i j : nat) (m : Z) (x y vx vy : R) :
  same_setting a b -> p_tangential a = (2 * m)%Z ->
  update a = Ok (a', oa) -> update b = Ok (b', ob) ->
  nth_error (positions a) i = Some (x, y) ->
  nth_error (velocities a) i = Some (vx, vy) ->
  nth_error (positions b) j = Some (- x, - y) ->
  nth_error (velocities b) j = Some (- vx, - vy) ->
  exists x' y' vx' vy',
    nth_error oa i = Some (x', y') /\
    nth_error (velocities a') i = Some (vx', vy') /\
    nth_error ob j = Some (- x', - y') /\
    nth_error (velocities b') j = Some (- vx', - vy').
Proof.
  intros Hs Hm Ha Hb Hpa Hva Hpb Hvb.
  destruct (update_ok_inv _ _ _ Ha) as (pr & pt & Hpr & Hpt & _ & -> & ->).
  destruct (update_ok_inv _ _ _ Hb) as (pr' & pt' & Hpr' & Hpt' & _ & -> & ->).
  destruct Hs as (Epr & Ept & Ed & Edt & Eb & Ea & Et).
  rewrite <- Epr in Hpr'. rewrite <- Ept in Hpt'.
  cbn [of_int exact] in Hpr, Hpt, Hpr', Hpt'.
  injection Hpr as <-. injection Hpt as <-. injection Hpr' as <-. injection Hpt' as <-.
  destruct (next_row a (IZR (p_radial a)) (IZR (p_tangential a)) i _ _ Hpa Hva)
    as (Hva' & Hpa').
  destruct (next_row b (IZR (p_radial a)) (IZR (p_tangential a)) j _ _ Hpb Hvb)
    as (Hvb' & Hpb').
  assert (Hf : force b (IZR (p_radial a)) (IZR (p_tangential a)) (- x, - y)
               = (- fst (force a (IZR (p_radial a)) (IZR (p_tangential a)) (x, y)),
                  - snd (force a (IZR (p_radial a)) (IZR (p_tangential a)) (x, y)))).
  { rewrite Hm, <- force_half_turn.
    unfold force, F_radial_mag, F_tangential_mag, phase.
    now rewrite Eb, Ea, Et. }
  set (f := force a (IZR (p_radial a)) (IZR (p_tangential a)) (x, y)) in *.
  rewrite Hf in Hvb', Hpb'.
  exists (fst (drift a (x, y) (kick a (vx, vy) f))),
         (snd (drift a (x, y) (kick a (vx, vy) f))),
         (fst (kick a (vx, vy) f)), (snd (kick a (vx, vy) f)).
  rewrite Hpa', Hva', Hpb', Hvb'.
  unfold drift, kick. cbn [fst snd fadd fmul exact]. rewrite <- Ed, <- Edt.
  repeat split; do 2 f_equal; ring.
Qed.

End Symmetry.

Lemma force_field_is_periodic_witness :
  (force Demo.one_period_later (IZR 8) (IZR 8) (1, 0)
   = force Demo.at_origin (IZR 8) (IZR 8) (1, 0))%R.
Proof.
  apply (force_field_is_periodic Demo.at_origin Demo.one_period_later 1 8 8).
  - simpl. lra.
  - reflexivity.
  - reflexivity.
  - reflexivity.
Defined.

Lemma half_turn_symmetry_witness :
  exists a' oa x' y' vx' vy',
    update Demo.mirrored = Ok (a', oa) /\
    nth_error oa 0 = Some (x', y') /\
    nth_error (velocities a') 0 = Some (vx', vy') /\
    nth_error oa 1 = Some (Ropp x', Ropp y') /\
    nth_error (velocities a') 1 = Some (Ropp vx', Ropp vy').
Proof.
  pose proof (exact_update_total Demo.mirrored eq_refl) as Hu.
  assert (Hs : same_setting Demo.mirrored Demo.mirrored) by (repeat split).
  destruct (half_turn_symmetry Demo.mirrored Demo.mirrored _ _ _ _ 0 1 4
              1 2 (1 / 2) 0 Hs eq_refl Hu Hu eq_refl eq_refl eq_refl eq_refl)
    as (x' & y' & vx' & vy' & H1 & H2 & H3 & H4).
  eexists _, _, x', y', vx', vy'.
  exact (conj Hu (conj H1 (conj H2 (conj H3 H4)))).
Defined.

(** * What [__init__] leaves, in every arithmetic *)

Section Construction_more.

Context {F : Type} {AF : Arith F}.
Local Open Scope arith_scope.

Lemma init_fields (p1 p2 n : Z) (d : F) (rng : nat -> F) (s : HarmonicExplorer F) :
  __init__ p1 p2 n d rng = Ok s ->
  (0 <= n)%Z /\
  damping s = d /\ dt s = lit (1 # 100) /\ force_amplitude s = lit 1 /\
  length (positions s) = Z.to_nat n /\
  velocities s = map (fun _ => (lit 0, lit 0)) (positions s) /\
  forall i p, nth_error (positions s) i = Some p ->
    p = (fsqrt (rng i) * lit 3 * fcos (lit 2 * pi * rng (Z.to_nat n + i)%nat),
         fsqrt (rng i) * lit 3 * fsin (lit 2 * pi * rng (Z.to_nat n + i)%nat)).
Proof.
  intros H.
  destruct (Z.ltb_spec n 0) as [Hlt|Hge].
  - unfold __init__, _initialize_particles in H. cbn [N] in H.
    destruct (Z.ltb_spec n 0); [discriminate|lia].
  - unfold __init__ in H.
    destruct (initialize_ok rng
                (mkSim p1 p2 n d (lit (1 # 100)) (lit (1 # 10)) (lit 1) (lit 0) [] []))
      as (pos & E & Hlen & Hnth); [assumption|].
    rewrite E in H. injection H as <-. cbn [N] in Hlen, Hnth. simpl.
    repeat split; try assumption.
    intros i p Hp.
    assert (Hi : (i < Z.to_nat n)%nat)
      by (rewrite <- Hlen; apply nth_error_Some; congruence).
    rewrite (Hnth i Hi) in Hp. now injection Hp as <-.
Qed.

End Construction_more.

(** * The window of the animation, in exact arithmetic *)

Section Window.

Local Open Scope R_scope.

Lemma fold_max_spec (l : list R) (a : R) :
  a <= fold_left Rmax l a /\
  (forall b, In b l -> b <= fold_left Rmax l a) /\
  (fold_left Rmax l a = a \/ In (fold_left Rmax l a) l).
Proof.
  revert a; induction l as [|c l IH]; intros a; simpl.
  - split; [lra|]. split; [intros b []|now left].
  - destruct (IH (Rmax a c)) as (H1 & H2 & H3).
    pose proof (Rmax_l a c). pose proof (Rmax_r a c).
    split; [lra|]. split.
    + intros b [<-|Hb]; [lra|auto].
    + destruct H3 as [E|Hin]; [|now right; right].
      rewrite E. unfold Rmax. destruct (Rle_dec a c); [right|]; now left.
Qed.

Lemma in_abs_flat (pos : list (vec R)) (b : R) :
  In b (map Rabs (flat pos)) <->
  exists p, In p pos /\ (b = Rabs (fst p) \/ b = Rabs (snd p)).
Proof.
  unfold flat. rewrite in_map_iff. split.
  - intros (c & <- & Hc). apply in_flat_map in Hc as (p & Hp & Hin).
    exists p. split; [assumption|].
    destruct Hin as [<-|[<-|[]]]; [now left|now right].
  - intros (p & Hp & [-> | ->]).
    + exists (fst p). split; [reflexivity|].
      apply in_flat_map. exists p. split; [assumption|now left].
    + exists (snd p). split; [reflexivity|].
      apply in_flat_map. exists p. split; [assumption|now right; left].
Qed.

Lemma max_abs_spec (pos : list (vec R)) (M : R) :
  max_abs pos = Ok M ->
  (forall p, In p pos -> Rabs (fst p) <= M /\ Rabs (snd p) <= M) /\
  (exists p, In p pos /\ (M = Rabs (fst p) \/ M = Rabs (snd p))).
Proof.
  unfold max_abs. cbn [fabs fmax exact_display].
  destruct (map Rabs (flat pos)) as [|a l] eqn:E; [discriminate|].
  intros H; injection H as <-.
  destruct (fold_max_spec l a) as (H1 & H2 & H3).
  assert (Hall : forall b, In b (a :: l) -> b <= fold_left Rmax l a)
    by (intros b [<-|Hb]; auto).
  assert (Hin : In (fold_left Rmax l a) (a :: l))
    by (destruct H3 as [->|H3]; [now left|now right]).
  rewrite <- E in Hall, Hin. split.
  - intros p Hp. split; apply Hall, in_abs_flat; exists p; auto.
  - now apply in_abs_flat.
Qed.

Lemma exact_margin : Q2R (12 # 10) = 12 / 10.
Proof. unfold Q2R; simpl; lra. Qed.

(** No limit is NaN or infinite here, so [animate] returns whenever
    [update] returns at least one row. *)
Lemma exact_animate_total (s s' : HarmonicExplorer R) (out : list (vec R)) :
  update s = Ok (s', out) -> out <> [] ->
  exists f, animate s = Ok (s', f) /\ offsets f = out.
Proof.
  intros Hu Hne. unfold animate. rewrite Hu.
  destruct (max_abs_is_ok out Hne) as (m & ->).
  cbn [ffinite exact_display].
  destruct (fpos (m * lit (12 # 10))%A); eexists; split; reflexivity.
Qed.


(** X13.  The window follows the cloud.  When [animate] returns, the array
    it hands to the plot is the position array of the object.  When it sets
    the axis limits to [(-lim, lim)], [lim] is positive and is 1.2 times the
    largest absolute coordinate, so every particle lies inside the window;
    it leaves the limits alone only when every particle is at the origin. *)
Theorem animate_window_holds_the_cloud (s s' : HarmonicExplorer R) (f : Frame R) :
  animate s = Ok (s', f) ->
  offsets f = positions s' /\
  match limit f with
  | Some lim =>
      0 < lim /\
      (forall p, In p (positions s') ->
         Rabs (fst p) * (12 / 10) <= lim /\ Rabs (snd p) * (12 / 10) <= lim) /\
      (exists p, In p (positions s') /\
         (lim = Rabs (fst p) * (12 / 10) \/ lim = Rabs (snd p) * (12 / 10)))
  | None => forall p, In p (positions s') -> p = (0, 0)
  end.
Proof.
  unfold animate.
  destruct (update s) as [[s1 out]|e] eqn:Hu; [|discriminate].
  destruct (update_lengths _ _ _ Hu) as (-> & _).
  destruct (max_abs (positions s1)) as [M|e] eqn:HM; [|discriminate].
  destruct (max_abs_spec _ _ HM) as (Hall & p0 & Hp0 & HM0).
  cbn [fpos ffinite fmul lit exact exact_display]. rewrite exact_margin.
  destruct (Rlt_dec 0 (M * (12 / 10))) as [Hpos|Hnpos];
    intros H; injection H as <- <-; cbn [offsets limit];
    (split; [reflexivity|]).
  - split; [assumption|]. split.
    + intros p Hp. destruct (Hall p Hp). lra.
    + exists p0. split; [assumption|]. destruct HM0 as [-> | ->]; auto.
  - intros [x y] Hp. destruct (Hall _ Hp) as [Hx Hy]. cbn [fst snd] in *.
    pose proof (Rabs_pos x). pose proof (Rabs_pos y).
    assert (Hx0 : Rabs x = 0) by lra. assert (Hy0 : Rabs y = 0) by lra.
    f_equal.
    + destruct (Req_dec x 0) as [E|E]; [assumption|].
      apply Rabs_no_R0 in E. contradiction.
    + destruct (Req_dec y 0) as [E|E]; [assumption|].
      apply Rabs_no_R0 in E. contradiction.
Qed.



End Window.

Lemma animate_window_holds_the_cloud_witness :
  exists s' f,
    animate Demo.at_origin = Ok (s', f) /\ offsets f = positions s'.
Proof.
  pose proof (exact_update_total Demo.at_origin eq_refl) as Hu.
  destruct (exact_animate_total _ _ _ Hu) as (f & Ha & _);
    [simpl; discriminate|].
  exists (next Demo.at_origin (IZR (p_radial Demo.at_origin))
            (IZR (p_tangential Demo.at_origin))), f.
  split; [exact Ha|].
  exact (proj1 (animate_window_holds_the_cloud _ _ _ Ha)).
Defined.

Lemma speed_stays_bounded_witness :
  exists sk frames,
    run 2 Demo.at_origin = Ok (sk, frames) /\
    Forall (fun v => (Rabs (fst v) <= 1 /\ Rabs (snd v) <= 1)%R) (velocities sk).
Proof.
  destruct (exact_run_total 2 Demo.at_origin eq_refl) as (sk & frames & Hr).
  exists sk, frames. split; [exact Hr|].
  refine (proj1 (speed_stays_bounded 2 Demo.at_origin sk frames 1 _ _ _ _ Hr)).
  - simpl; lra.
  - simpl; lra.
  - simpl. rewrite Rabs_R1.
    pose proof (sqrt_sqrt 2 ltac:(lra)). pose proof (sqrt_pos 2). nra.
  - apply Forall_cons; [split; simpl; apply Rabs_le; lra|].
    apply Forall_cons; [split; simpl; apply Rabs_le; lra|].
    apply Forall_nil.
Defined.


(** * Coordinates that are not numbers, in binary64 *)

Module IEEE_nan.

Local Open Scope float_scope.

Lemma is_nan_eq (x : float) : is_nan x = true -> x = nan.
Proof.
  unfold is_nan. rewrite eqb_spec. intros H.
  apply Prim2SF_inj. rewrite IEEE.Prim2SF_nan.
  destruct (Prim2SF x) as [s|s| |s m e] eqn:E; try reflexivity; exfalso;
    unfold SFeqb in H; rewrite IEEE.SFcompare_refl in H by discriminate;
    discriminate H.
Qed.

Lemma nan_add_l (b : float) : nan + b = nan.
Proof. apply Prim2SF_inj. rewrite add_spec, IEEE.Prim2SF_nan. reflexivity. Qed.

Lemma nan_mul_r (a : float) : a * nan = nan.
Proof.
  apply Prim2SF_inj. rewrite mul_spec, IEEE.Prim2SF_nan. unfold SF64mul.
  destruct (Prim2SF a) as [[|]|[|]| |]; reflexivity.
Qed.

Lemma nan_div_r (a : float) : a / nan = nan.
Proof.
  apply Prim2SF_inj. rewrite div_spec, IEEE.Prim2SF_nan. unfold SF64div.
  destruct (Prim2SF a) as [[|]|[|]| |]; reflexivity.
Qed.

Lemma nan_sqrt : PrimFloat.sqrt nan = nan.
Proof. reflexivity. Qed.

Lemma nan_abs : abs nan = nan.
Proof. reflexivity. Qed.

Lemma nan_leb_l (a : float) : (nan <=? a) = false.
Proof. rewrite leb_spec, IEEE.Prim2SF_nan. reflexivity. Qed.

Lemma nan_max_l (b : float) : B64_display.b64_max nan b = nan.
Proof.
  unfold B64_display.b64_max.
  change (is_nan nan) with true. now rewrite orb_true_r.
Qed.

Lemma nan_max_r (a : float) : B64_display.b64_max a nan = nan.
Proof.
  unfold B64_display.b64_max. rewrite nan_leb_l. simpl.
  destruct (is_nan a) eqn:E; [now apply is_nan_eq|reflexivity].
Qed.

Lemma nan_fold_max (l : list float) : fold_left B64_display.b64_max l nan = nan.
Proof.
  induction l as [|b l IH]; [reflexivity|]. simpl. now rewrite nan_max_l.
Qed.

Lemma nan_in_fold_max (l : list float) (a : float) :
  In nan l -> fold_left B64_display.b64_max l a = nan.
Proof.
  revert a; induction l as [|b l IH]; intros a; [intros []|].
  intros [->|Hin]; simpl.
  - rewrite nan_max_r. apply nan_fold_max.
  - now apply IH.
Qed.

End IEEE_nan.

Section Nan_binary64.

Variable lm : Libm.
Local Open Scope float_scope.

Ltac b64_ops :=
  cbn [fadd fmul fdiv fneg feqb fsqrt fsin fcos farctan2 of_int lit pi binary64
       fabs fmax fpos ffinite binary64_display] in *.

(** The radius and the angle of a position with a NaN coordinate. *)
Lemma b64_nan_polar (x y : float) :
  is_nan x || is_nan y = true ->
  radius (AF := binary64 lm) x y = nan /\ B64.b64_arctan2 lm y x = nan.
Proof.
  intros H. split.
  - unfold radius. b64_ops.
    assert (E : PrimFloat.sqrt (x * x + y * y) = nan).
    { apply orb_true_iff in H as [H|H]; apply IEEE_nan.is_nan_eq in H; subst.
      - now rewrite IEEE.mul_nan_l, IEEE_nan.nan_add_l.
      - now rewrite IEEE.mul_nan_l, IEEE.add_nan_r. }
    rewrite E. reflexivity.
  - unfold B64.b64_arctan2. rewrite orb_comm in H. now rewrite H.
Qed.

Lemma b64_nan_row (s : HarmonicExplorer float) (pr pt x y : float) (v : vec float) :
  is_nan x || is_nan y = true ->
  kick (AF := binary64 lm) s v (force (AF := binary64 lm) s pr pt (x, y)) = (nan, nan) /\
  drift (AF := binary64 lm) s (x, y) (nan, nan) = (nan, nan).
Proof.
  intros H. destruct (b64_nan_polar x y H) as [Hr Ht].
  assert (Hf : force (AF := binary64 lm) s pr pt (x, y) = (nan, nan)).
  { unfold force, F_radial_mag. rewrite Hr. b64_ops. rewrite Ht.
    rewrite IEEE_nan.nan_mul_r.
    change (B64.b64_cos lm nan) with nan.
    rewrite !IEEE_nan.nan_mul_r, !IEEE_nan.nan_add_l. reflexivity. }
  rewrite Hf. unfold kick, drift. b64_ops. cbn [fst snd].
  now rewrite !IEEE.mul_nan_l, !IEEE.add_nan_r.
Qed.

Lemma b64_nan_frame (s s' : HarmonicExplorer float) (f : Frame float) (i : nat)
  (x y : float) :
  nth_error (positions s) i = Some (x, y) ->
  is_nan x || is_nan y = true ->
  animate (AF := binary64 lm) s = Ok (s', f) ->
  nth_error (positions s') i = Some (nan, nan) /\
  nth_error (velocities s') i = Some (nan, nan) /\
  nth_error (offsets f) i = Some (nan, nan) /\ limit f = None.
Proof.
  intros Hp Hn Ha. unfold animate in Ha.
  destruct (update (AF := binary64 lm) s) as [[s1 out]|e] eqn:Hu; [|discriminate].
  destruct (update_ok_inv (AF := binary64 lm) _ _ _ Hu)
    as (pr & pt & _ & _ & Hws & Hs1 & Hout).
  destruct (nth_error_same_length _ _ _ _ Hws Hp) as (v & Hv).
  destruct (next_row (AF := binary64 lm) s pr pt i _ _ Hp Hv) as (Hv' & Hp').
  destruct (b64_nan_row s pr pt x y v Hn) as (Ek & Ed).
  rewrite Ek in Hv', Hp'. rewrite Ed in Hp'. rewrite <- Hs1 in Hv', Hp'.
  assert (Hm : max_abs (DF := binary64_display) out = Ok nan).
  { subst out. unfold max_abs.
    assert (Hin : In nan (map fabs (flat (positions s1)))).
    { apply in_map_iff. exists nan. split; [reflexivity|].
      unfold flat. apply in_flat_map. exists (nan, nan).
      split; [eapply nth_error_In; exact Hp'|now left]. }
    destruct (map fabs (flat (positions s1))) as [|a l]; [destruct Hin|].
    b64_ops. destruct Hin as [->|Hin].
    - now rewrite IEEE_nan.nan_fold_max.
    - now rewrite IEEE_nan.nan_in_fold_max. }
  rewrite Hm in Ha. b64_ops. injection Ha as <- <-. cbn [offsets limit].
  subst out. repeat split; assumption.
Qed.

(** X15.  A coordinate that is not a number never recovers.  From a
    position with a NaN coordinate on, every call of [animate] that returns
    hands the plot the row [(nan, nan)] for that particle and never sets the
    axis limits, the test [lim > 0] being false for NaN. *)
Theorem b64_nan_is_permanent (k : nat) (s sk : HarmonicExplorer float)
  (fs : list (Frame float)) (i : nat) (x y : float) :
  nth_error (positions s) i = Some (x, y) ->
  is_nan x || is_nan y = true ->
  animation (AF := binary64 lm) k s = Ok (sk, fs) ->
  Forall (fun f => nth_error (offsets f) i = Some (nan, nan) /\ limit f = None) fs.
Proof.
  revert s fs x y; induction k as [|k IH]; intros s fs x y Hp Hn Ha.
  - simpl in Ha. injection Ha as <- <-. constructor.
  - simpl in Ha.
    destruct (animate (AF := binary64 lm) s) as [[s1 f]|e] eqn:Hf; [|discriminate].
    destruct (animation (AF := binary64 lm) k s1) as [[s2 fs']|e] eqn:Hk;
      [|discriminate].
    injection Ha as <- <-.
    destruct (b64_nan_frame s s1 f i x y Hp Hn Hf) as (Hp1 & _ & Ho & Hl).
    constructor; [now split|].
    apply (IH s1 fs' nan nan Hp1 eq_refl Hk).
Qed.

End Nan_binary64.

Lemma b64_nan_is_permanent_witness :
  exists sk fs,
    animation (AF := Demo.arith) 3 Demo.lost = Ok (sk, fs) /\
    Forall (fun f => nth_error (offsets f) 0 = Some (nan, nan) /\ limit f = None) fs.
Proof.
  destruct (animation (AF := Demo.arith) 3 Demo.lost) as [[sk fs]|e] eqn:Ha;
    [|vm_compute in Ha; discriminate Ha].
  exists sk, fs. split; [reflexivity|].
  exact (b64_nan_is_permanent Demo.libm 3 Demo.lost sk fs 0 nan (B64.b64_lit 1)
           eq_refl eq_refl Ha).
Defined.

Lemma b64_clock_reference_run_witness :
  exists s0 sk frames,
    __init__ (AF := Demo.arith) 8 8 1 (B64.b64_lit (98 # 100)) Demo.rng = Ok s0 /\
    run (AF := Demo.arith) 5 s0 = Ok (sk, frames) /\
    B64.near (t sk) (5 # 100) = true.
Proof.
  destruct (__init__ (AF := Demo.arith) 8 8 1 (B64.b64_lit (98 # 100)) Demo.rng)
    as [s0|e] eqn:Hi; [|vm_compute in Hi; discriminate Hi].
  destruct (run (AF := Demo.arith) 5 s0) as [[sk frames]|e] eqn:Hr.
  - exists s0, sk, frames. split; [reflexivity|]. split; [exact Hr|].
    apply (b64_clock_reference_run Demo.libm 8 8 1 (B64.b64_lit (98 # 100))
             Demo.rng s0 sk 5 frames Hi Hr).
    repeat constructor.
  - exfalso. vm_compute in Hi. injection Hi as <-.
    vm_compute in Hr. discriminate Hr.
Defined.

(** * The shape of the field, in exact arithmetic *)

Section Rays.

Local Open Scope R_scope.

Lemma arctan2_scale (c x y : R) :
  0 < c -> Exact.arctan2 (c * y) (c * x) = Exact.arctan2 y x.
Proof.
  intros Hc. unfold Exact.arctan2.
  destruct (Rtotal_order x 0) as [Hx|[Hx|Hx]].
  - replace (c * y / (c * x)) with (y / x) by (field; lra).
    destruct (Rlt_dec 0 (c * x)); [nra|]. destruct (Rlt_dec 0 x); [lra|].
    destruct (Rlt_dec (c * x) 0); [|nra]. destruct (Rlt_dec x 0); [|lra].
    destruct (Rle_dec 0 (c * y)), (Rle_dec 0 y); try reflexivity; nra.
  - subst x. rewrite Rmult_0_r.
    destruct (Rlt_dec 0 0); [lra|].
    destruct (Rlt_dec 0 (c * y)), (Rlt_dec 0 y); try nra; try reflexivity.
    destruct (Rlt_dec (c * y) 0), (Rlt_dec y 0); try nra; reflexivity.
  - replace (c * y / (c * x)) with (y / x) by (field; lra).
    destruct (Rlt_dec 0 (c * x)); [|nra]. destruct (Rlt_dec 0 x); [|lra].
    reflexivity.
Qed.

(** X18.  The field has no scale: the force is the same all along a ray
    from the origin, whatever the distance. *)
Theorem force_depends_on_direction_only (s : HarmonicExplorer R)
  (pr pt c x y : R) :
  0 < c -> force s pr pt (c * x, c * y) = force s pr pt (x, y).
Proof.
  intros Hc.
  destruct (exact_radius_cases x y) as [(Hx & Hy & _)|(Hne & Hr & Hpos)].
  - subst. now rewrite Rmult_0_r.
  - assert (Hr' : radius (AF := exact) (c * x) (c * y) = c * radius (AF := exact) x y).
    { destruct (exact_radius_cases (c * x) (c * y)) as [(Hx & Hy & _)|(_ & -> & _)].
      - destruct Hne; nra.
      - rewrite Hr.
        replace (c * x * (c * x) + c * y * (c * y)) with (c * c * (x * x + y * y))
          by ring.
        rewrite sqrt_mult by nra. rewrite sqrt_square by lra. reflexivity. }
    unfold force. rewrite Hr', Hr.
    cbn [fst snd fadd fmul fdiv fneg farctan2 exact].
    rewrite (arctan2_scale c x y Hc).
    set (r := sqrt (x * x + y * y)) in *.
    replace (c * x / (c * r)) with (x / r) by (field; lra).
    replace (c * y / (c * r)) with (y / r) by (field; lra).
    replace (- (c * y) / (c * r)) with (- y / r) by (field; lra).
    reflexivity.
Qed.

(** X19.  The first frame is a pure rotation.  On an object fresh from
    [__init__] the clock is 0, the radial magnitude vanishes and the
    tangential one is the amplitude 1, so the first [update] gives every
    particle away from the origin the velocity [0.01 * (-y, x) / r], at a
    right angle to its position, and moves it by 0.01 times that. *)
Theorem first_frame_is_tangential (p1 p2 n : Z) (d : R) (rng : nat -> R)
  (s0 s1 : HarmonicExplorer R) (out : list (vec R)) (i : nat) (x y : R) :
  __init__ p1 p2 n d rng = Ok s0 ->
  update s0 = Ok (s1, out) ->
  nth_error (positions s0) i = Some (x, y) ->
  x <> 0 \/ y <> 0 ->
  nth_error (velocities s1) i
  = Some (- y / sqrt (x * x + y * y) / 100, x / sqrt (x * x + y * y) / 100) /\
  nth_error out i
  = Some (x + - y / sqrt (x * x + y * y) / 100 / 100,
          y + x / sqrt (x * x + y * y) / 100 / 100).
Proof.
  intros Hi Hu Hp Hne.
  destruct exact_lit_values as (L0 & L1 & L2 & _ & Ldt & _).
  destruct (init_fields _ _ _ _ _ _ Hi) as (_ & _ & Edt & Ea & _ & Hv0 & _).
  destruct (init_inv _ _ _ _ _ _ Hi) as (_ & Et & _).
  cbn [lit exact] in Edt, Ea, Hv0, Et.
  rewrite Ldt in Edt. rewrite L1 in Ea. rewrite L0 in Et, Hv0.
  destruct (exact_config_kept _ _ _ Hu) as (_ & _ & _ & Hws & Es1).
  destruct (update_lengths _ _ _ Hu) as (Hout & _).
  assert (Hv : nth_error (velocities s0) i = Some (0, 0))
    by (rewrite Hv0, nth_error_map, Hp; reflexivity).
  destruct (next_row s0 (IZR (p_radial s0)) (IZR (p_tangential s0)) i _ _ Hp Hv)
    as (Hv' & Hp').
  rewrite <- Es1 in Hv', Hp'. rewrite Hout, Hv', Hp'.
  destruct (exact_radius_cases x y) as [(Hx & Hy & _)|(_ & Hr & Hpos)];
    [destruct Hne; contradiction|].
  unfold drift, kick, force, F_radial_mag, F_tangential_mag, phase.
  rewrite Hr, Edt, Ea, Et.
  cbn [fst snd fadd fmul fdiv fneg fsin fcos exact].
  rewrite !Rmult_0_r, sin_0, cos_0.
  set (r := sqrt (x * x + y * y)) in *.
  split; do 2 f_equal; field; lra.
Qed.

End Rays.

Lemma force_depends_on_direction_only_witness :
  (force Demo.at_origin 8 8 (2 * 1, 2 * 0) = force Demo.at_origin 8 8 (1, 0))%R.
Proof.
  apply (force_depends_on_direction_only Demo.at_origin 8 8 2 1 0). lra.
Defined.

Lemma first_frame_is_tangential_witness :
  exists s0 s1 out x y,
    __init__ 8 8 1 (98 / 100)%R (fun _ => (1 / 2)%R) = Ok s0 /\
    update s0 = Ok (s1, out) /\
    nth_error (positions s0) 0 = Some (x, y) /\
    nth_error (velocities s1) 0
    = Some ((- y / sqrt (x * x + y * y) / 100)%R,
            (x / sqrt (x * x + y * y) / 100)%R).
Proof.
  destruct (init_total (AF := exact) 8 8 1 (98 / 100)%R (fun _ => (1 / 2)%R))
    as (s0 & Hi); [lia|].
  pose proof (exact_update_total s0 (init_well_shaped _ _ _ _ _ _ Hi)) as Hu.
  destruct (init_fields _ _ _ _ _ _ Hi) as (_ & _ & _ & _ & Hlen & _ & Hpos).
  destruct (nth_error (positions s0) 0) as [[x y]|] eqn:Hp;
    [|apply nth_error_None in Hp; rewrite Hlen in Hp; simpl in Hp; lia].
  assert (Hne : (x <> 0 \/ y <> 0)%R).
  { specialize (Hpos 0%nat (x, y) Hp).
    injection Hpos as Hx Hy. cbn [fmul fsqrt fcos fsin lit pi exact] in Hx, Hy.
    destruct exact_lit_values as (_ & _ & L2 & L3 & _).
    rewrite L2, L3 in Hx, Hy.
    destruct (Req_dec x 0) as [Ex|Ex]; [|now left]. right. intros Ey.
    assert (Hs : (0 < sqrt (1 / 2))%R) by (apply sqrt_lt_R0; lra).
    pose proof (sin2_cos2 (2 * PI * (1 / 2))) as H1. unfold Rsqr in H1.
    rewrite Ex in Hx. rewrite Ey in Hy.
    assert (Hc : cos (2 * PI * (1 / 2)) = 0%R) by nra.
    assert (Hn : sin (2 * PI * (1 / 2)) = 0%R) by nra.
    rewrite Hc, Hn in H1. lra. }
  destruct (first_frame_is_tangential 8 8 1 (98 / 100)%R (fun _ => (1 / 2)%R)
              s0 _ _ 0 x y Hi Hu Hp Hne) as (Hv & _).
  eexists s0, _, _, x, y.
  exact (conj Hi (conj Hu (conj Hp Hv))).
Defined.

(** * The clock, in binary64, over a long run *)

Section Clock_long.

Local Open Scope float_scope.






End Clock_long.


(** * No amplitude, in binary64 *)

Section Unforced_binary64.

Local Open Scope float_scope.


End Unforced_binary64.



(** * The origin, in binary64: directions, force and rest *)

Section Origin_claim.

Local Open Scope float_scope.

(** C10, as the code has it.  At a position made of zeros the radius is
    replaced by the sentinel [1e-9] and both direction vectors come out as
    zeros; the force there is made of zeros provided the two force
    magnitudes are finite; and a particle at rest there is still there, at
    rest, after any number of calls of [update] along which the two
    magnitudes are finite. *)
Theorem origin_force_is_zero_when_finite (lm : Libm) :
  (forall x y : float,
     is_zero x = true -> is_zero y = true ->
     radius (AF := binary64 lm) x y = B64.b64_lit (1 # 1000000000) /\
     is_zero (x / radius (AF := binary64 lm) x y) = true /\
     is_zero (y / radius (AF := binary64 lm) x y) = true /\
     is_zero (- y / radius (AF := binary64 lm) x y) = true) /\
  (forall (s : HarmonicExplorer float) (pr pt x y : float),
     is_zero x = true -> is_zero y = true ->
     is_finite (F_radial_mag (AF := binary64 lm) s pr pt (B64.b64_arctan2 lm y x))
     = true ->
     is_finite (F_tangential_mag (AF := binary64 lm) s pt) = true ->
     is_zero (fst (force (AF := binary64 lm) s pr pt (x, y))) = true /\
     is_zero (snd (force (AF := binary64 lm) s pr pt (x, y))) = true) /\
  (forall (k : nat) (s : HarmonicExplorer float) (i : nat),
     is_finite (damping s) = true -> is_finite (dt s) = true ->
     rests s i = true ->
     finite_field_run lm k s i = true ->
     exists sk frames,
       run (AF := binary64 lm) k s = Ok (sk, frames) /\ rests sk i = true).
Proof.
  split; [|split].
  - intros x y Hx Hy.
    rewrite (b64_radius_origin lm x y Hx Hy).
    destruct (b64_sentinel) as [Hfin Hnz].
    split; [reflexivity|].
    repeat split; apply IEEE.div_zero_l; try assumption.
    now rewrite IEEE.opp_zero.
  - intros s pr pt x y. apply b64_force_origin.
  - intros k s i. apply b64_rest_run.
Qed.

End Origin_claim.

Lemma origin_force_is_zero_when_finite_witness :
  rests Demo.resting 0 = true /\
  finite_field_run Demo.libm 50 Demo.resting 0 = true /\
  exists sk frames,
    run (AF := Demo.arith) 50 Demo.resting = Ok (sk, frames) /\
    rests sk 0 = true.
Proof.
  assert (Hr : rests Demo.resting 0 = true) by reflexivity.
  assert (Hf : finite_field_run Demo.libm 50 Demo.resting 0 = true)
    by (vm_compute; reflexivity).
  split; [exact Hr|]. split; [exact Hf|].
  exact (proj2 (proj2 (origin_force_is_zero_when_finite Demo.libm))
           50%nat Demo.resting 0%nat eq_refl eq_refl Hr Hf).
Defined.

(** C10, as stated, fails.  With [p_radial = 10^308] the phase is
    [inf * 0 = NaN], so the radial magnitude is NaN and so is the force on
    the particle at the origin, whatever the elementary functions are: the
    particle, at rest there, comes back with coordinates that are not
    zeros. *)
Lemma origin_can_be_left :
  ~ (exists lm pr pt,
       B64.b64_of_int (p_radial Demo.overflowing_phase) = Some pr /\
       B64.b64_of_int (p_tangential Demo.overflowing_phase) = Some pt /\
       is_zero (fst (force (AF := binary64 lm) Demo.overflowing_phase pr pt
                       (B64.b64_lit 0, B64.b64_lit 0))) = true) /\
  ~ (exists lm s' out x' y',
       update (AF := binary64 lm) Demo.overflowing_phase = Ok (s', out) /\
       nth_error out 0 = Some (x', y') /\
       is_zero x' = true).
Proof.
  split.
  - intros (lm & pr & pt & Hpr & Hpt & Hz).
    vm_compute in Hpr. injection Hpr as <-.
    vm_compute in Hpt. injection Hpt as <-.
    vm_compute in Hz. discriminate Hz.
  - intros (lm & s' & out & x' & y' & H & Hn & Hz).
    vm_compute in H. injection H as _ <-.
    injection Hn as <- _. vm_compute in Hz. discriminate Hz.
Qed.
